(** * A fan-out / fan-in pipeline of goroutines (precode.go)

    The program starts a [Generator] goroutine that sends 1, 2, 3, ... on the
    unbuffered channel [chIn] until its context is cancelled, [NumOut]
    [Worker] goroutines that compete for the values of [chIn] and forward
    them on their private unbuffered channels [outs[i]], one collector
    goroutine per [outs[i]] that counts in [amounts[i]] and forwards into the
    buffered channel [chOut], a goroutine that waits on the [sync.WaitGroup]
    and closes [chOut], and the [main] goroutine, which drains [chOut] and
    compares its tallies with those of the generator.

    The embedding is a small-step interleaving semantics: every goroutine is
    a program counter plus its locals, every channel is its Go state, and one
    [step] executes one atomic statement of one goroutine (or one rendezvous
    of two goroutines on an unbuffered channel).  The scheduler and the
    timer of the context are the only sources of non-determinism; they are
    the [action] that [step] receives, so the semantics is an executable
    function and every run is a list of actions.  [int64] variables are
    integers of [Z] with the wrap-around of Go written out.  Durations are
    not modelled: [time.Sleep] is a step, and the deadline of the context is
    an action that the scheduler may take at any moment. *)

From Stdlib Require Import ZArith Lia List Permutation.
From stdpp Require Import base tactics option list numbers.

Local Open Scope Z_scope.

(** * The program *)

(** ** [int64] arithmetic *)

Definition min_int64 : Z := - 2 ^ 63.

Definition max_int64 : Z := 2 ^ 63 - 1.

(** Go's two's complement wrap-around of an [int64] result. *)
Definition wrap64 (z : Z) : Z := Z.modulo (z + 2 ^ 63) (2 ^ 64) - 2 ^ 63.

Definition in_int64 (z : Z) : Prop := min_int64 <= z <= max_int64.

(** The constant [NumOut] of [main]. *)
Definition NumOut : nat := 25.

(** ** Program counters

    One constructor per statement at which a goroutine can be observed. *)

(** [Generator] (lines 16-29). *)
Inductive gpc : Type :=
| GIdle        (* the [go Generator(...)] statement has not run yet *)
| GSelect      (* at the [select] of line 20 *)
| GSend        (* [g++] done, blocked in [ch <- g] of line 25 *)
| GHookSum     (* in [fn(g)]: before [atomic.AddInt64(&inputSum, i)] *)
| GHookCount   (* in [fn(g)]: before [atomic.AddInt64(&inputCount, 1)] *)
| GClose       (* [return] taken, the deferred [close(ch)] is pending *)
| GDone.

(** [Worker] (lines 48-60). *)
Inductive wpc : Type :=
| WIdle              (* not started *)
| WRecv              (* at [v, ok := <-in] *)
| WSend (v : Z)      (* blocked in [out <- v] *)
| WSleep             (* in [time.Sleep] *)
| WClose             (* [break] taken, the deferred [close(out)] is pending *)
| WDone.

(** The collector closure of lines 107-113. *)
Inductive cpc : Type :=
| CIdle
| CRecv              (* at the receive of [for val := range in] *)
| CInc (v : Z)       (* before [amounts[i]++] *)
| CSend (v : Z)      (* at [chOut <- val] *)
| CExit              (* loop left, the deferred [wg.Done()] is pending *)
| CDone.

(** The closing goroutine of lines 116-121. *)
Inductive kpc : Type :=
| KIdle
| KWait              (* at [wg.Wait()] *)
| KClose             (* before [close(chOut)] *)
| KDone.

(** [main] from line 83 on; lines 63-71, 88-90, 98-102 only allocate. *)
Inductive mpc : Type :=
| MGoGen                   (* line 83 *)
| MGoWorker (i : nat)      (* lines 91-95, loop variable [i] *)
| MWgAdd (j : nat)         (* line 106, loop variable [j] *)
| MGoCollector (j : nat)   (* lines 107-113 *)
| MGoCloser                (* line 116 *)
| MRecv                    (* the receive of [for v := range chOut] *)
| MCount (v : Z)           (* line 128 *)
| MSum (v : Z)             (* line 129 *)
| MPrintCounts             (* line 132 *)
| MPrintSums               (* line 133 *)
| MPrintAmounts            (* line 134 *)
| MCheckSum                (* line 137 *)
| MCheckCount              (* line 140 *)
| MPartition (k : nat)     (* lines 143-145, position [k] in [amounts] *)
| MCheckPartition          (* line 146 *)
| MReturn.                 (* line 149 and the deferred [cancel()] *)

(** The three checks of lines 137-148. *)
Inductive check : Type := ChkSum | ChkCount | ChkPartition.

(** ** Observable events, newest first in the [log] of a state *)
Inductive event : Type :=
| EvDeadline                       (* the timer of the context fired *)
| EvHandoff (i : nat) (v : Z)      (* [ch <- g] met the receive of worker [i] *)
| EvHookCall (v : Z)               (* [fn(v)] entered *)
| EvHookRet (v : Z)                (* [fn(v)] returned *)
| EvCloseIn                        (* [close(ch)] in [Generator] *)
| EvForward (i : nat) (v : Z)      (* [out <- v] of worker [i] met collector [i] *)
| EvSleep (i : nat)                (* worker [i] slept *)
| EvWorkerClose (i : nat)          (* [close(out)] in worker [i] *)
| EvInc (i : nat)                  (* [amounts[i]++] *)
| EvMerge (i : nat) (v : Z)        (* [chOut <- val] in collector [i] *)
| EvWgDone (i : nat)               (* [wg.Done()] in collector [i] *)
| EvWaited                         (* [wg.Wait()] returned *)
| EvCloseOut                       (* [close(chOut)] *)
| EvRead (v : Z)                   (* [main] received [v] from [chOut] *)
| EvPrintCounts (a b : Z)          (* line 132 *)
| EvPrintSums (a b : Z)            (* line 133 *)
| EvPrintAmounts (l : list Z)      (* line 134 *)
| EvCheck (c : check) (ok : bool)  (* a condition of lines 137-148 evaluated *)
| EvFatal (c : check)              (* [log.Fatalf] *)
| EvExit                           (* [main] returned *)
| EvPanic.                         (* a run-time panic *)

(** ** The state of the process *)

Record state : Type := mkState {
  ctx_done : bool;
  gen : gpc;
  g : Z;
  chIn_closed : bool;
  inputSum : Z;
  inputCount : Z;
  workers : list wpc;
  outs_closed : list bool;
  collectors : list cpc;
  amounts : list Z;
  chOut : list Z;
  chOut_closed : bool;
  wg : Z;
  closer : kpc;
  main : mpc;
  count : Z;
  sum : Z;
  exit_code : option Z;
  log : list event
}.

Definition set_ctx_done (x : bool) (s : state) : state :=
  mkState x (gen s) (g s) (chIn_closed s) (inputSum s) (inputCount s) (workers s) (outs_closed s) (collectors s) (amounts s) (chOut s) (chOut_closed s) (wg s) (closer s) (main s) (count s) (sum s) (exit_code s) (log s).

Definition set_gen (x : gpc) (s : state) : state :=
  mkState (ctx_done s) x (g s) (chIn_closed s) (inputSum s) (inputCount s) (workers s) (outs_closed s) (collectors s) (amounts s) (chOut s) (chOut_closed s) (wg s) (closer s) (main s) (count s) (sum s) (exit_code s) (log s).

Definition set_g (x : Z) (s : state) : state :=
  mkState (ctx_done s) (gen s) x (chIn_closed s) (inputSum s) (inputCount s) (workers s) (outs_closed s) (collectors s) (amounts s) (chOut s) (chOut_closed s) (wg s) (closer s) (main s) (count s) (sum s) (exit_code s) (log s).

Definition set_chIn_closed (x : bool) (s : state) : state :=
  mkState (ctx_done s) (gen s) (g s) x (inputSum s) (inputCount s) (workers s) (outs_closed s) (collectors s) (amounts s) (chOut s) (chOut_closed s) (wg s) (closer s) (main s) (count s) (sum s) (exit_code s) (log s).

Definition set_inputSum (x : Z) (s : state) : state :=
  mkState (ctx_done s) (gen s) (g s) (chIn_closed s) x (inputCount s) (workers s) (outs_closed s) (collectors s) (amounts s) (chOut s) (chOut_closed s) (wg s) (closer s) (main s) (count s) (sum s) (exit_code s) (log s).

Definition set_inputCount (x : Z) (s : state) : state :=
  mkState (ctx_done s) (gen s) (g s) (chIn_closed s) (inputSum s) x (workers s) (outs_closed s) (collectors s) (amounts s) (chOut s) (chOut_closed s) (wg s) (closer s) (main s) (count s) (sum s) (exit_code s) (log s).

Definition set_workers (x : list wpc) (s : state) : state :=
  mkState (ctx_done s) (gen s) (g s) (chIn_closed s) (inputSum s) (inputCount s) x (outs_closed s) (collectors s) (amounts s) (chOut s) (chOut_closed s) (wg s) (closer s) (main s) (count s) (sum s) (exit_code s) (log s).

Definition set_outs_closed (x : list bool) (s : state) : state :=
  mkState (ctx_done s) (gen s) (g s) (chIn_closed s) (inputSum s) (inputCount s) (workers s) x (collectors s) (amounts s) (chOut s) (chOut_closed s) (wg s) (closer s) (main s) (count s) (sum s) (exit_code s) (log s).

Definition set_collectors (x : list cpc) (s : state) : state :=
  mkState (ctx_done s) (gen s) (g s) (chIn_closed s) (inputSum s) (inputCount s) (workers s) (outs_closed s) x (amounts s) (chOut s) (chOut_closed s) (wg s) (closer s) (main s) (count s) (sum s) (exit_code s) (log s).

Definition set_amounts (x : list Z) (s : state) : state :=
  mkState (ctx_done s) (gen s) (g s) (chIn_closed s) (inputSum s) (inputCount s) (workers s) (outs_closed s) (collectors s) x (chOut s) (chOut_closed s) (wg s) (closer s) (main s) (count s) (sum s) (exit_code s) (log s).

Definition set_chOut (x : list Z) (s : state) : state :=
  mkState (ctx_done s) (gen s) (g s) (chIn_closed s) (inputSum s) (inputCount s) (workers s) (outs_closed s) (collectors s) (amounts s) x (chOut_closed s) (wg s) (closer s) (main s) (count s) (sum s) (exit_code s) (log s).

Definition set_chOut_closed (x : bool) (s : state) : state :=
  mkState (ctx_done s) (gen s) (g s) (chIn_closed s) (inputSum s) (inputCount s) (workers s) (outs_closed s) (collectors s) (amounts s) (chOut s) x (wg s) (closer s) (main s) (count s) (sum s) (exit_code s) (log s).

Definition set_wg (x : Z) (s : state) : state :=
  mkState (ctx_done s) (gen s) (g s) (chIn_closed s) (inputSum s) (inputCount s) (workers s) (outs_closed s) (collectors s) (amounts s) (chOut s) (chOut_closed s) x (closer s) (main s) (count s) (sum s) (exit_code s) (log s).

Definition set_closer (x : kpc) (s : state) : state :=
  mkState (ctx_done s) (gen s) (g s) (chIn_closed s) (inputSum s) (inputCount s) (workers s) (outs_closed s) (collectors s) (amounts s) (chOut s) (chOut_closed s) (wg s) x (main s) (count s) (sum s) (exit_code s) (log s).

Definition set_main (x : mpc) (s : state) : state :=
  mkState (ctx_done s) (gen s) (g s) (chIn_closed s) (inputSum s) (inputCount s) (workers s) (outs_closed s) (collectors s) (amounts s) (chOut s) (chOut_closed s) (wg s) (closer s) x (count s) (sum s) (exit_code s) (log s).

Definition set_count (x : Z) (s : state) : state :=
  mkState (ctx_done s) (gen s) (g s) (chIn_closed s) (inputSum s) (inputCount s) (workers s) (outs_closed s) (collectors s) (amounts s) (chOut s) (chOut_closed s) (wg s) (closer s) (main s) x (sum s) (exit_code s) (log s).

Definition set_sum (x : Z) (s : state) : state :=
  mkState (ctx_done s) (gen s) (g s) (chIn_closed s) (inputSum s) (inputCount s) (workers s) (outs_closed s) (collectors s) (amounts s) (chOut s) (chOut_closed s) (wg s) (closer s) (main s) (count s) x (exit_code s) (log s).

Definition set_exit_code (x : option Z) (s : state) : state :=
  mkState (ctx_done s) (gen s) (g s) (chIn_closed s) (inputSum s) (inputCount s) (workers s) (outs_closed s) (collectors s) (amounts s) (chOut s) (chOut_closed s) (wg s) (closer s) (main s) (count s) (sum s) x (log s).

Definition set_log (x : list event) (s : state) : state :=
  mkState (ctx_done s) (gen s) (g s) (chIn_closed s) (inputSum s) (inputCount s) (workers s) (outs_closed s) (collectors s) (amounts s) (chOut s) (chOut_closed s) (wg s) (closer s) (main s) (count s) (sum s) (exit_code s) x.

Definition emit (e : event) (s : state) : state := set_log (e :: log s) s.

(** A run-time panic (close of a closed channel, send on a closed channel,
    negative [WaitGroup] counter, index out of range) ends the process with
    status 2. *)
Definition panic (s : state) : state := set_exit_code (Some 2) (emit EvPanic s).

(** [log.Fatalf]: the message, then [os.Exit(1)]. *)
Definition fatal (c : check) (s : state) : state :=
  set_exit_code (Some 1) (emit (EvFatal c) s).

(** ** The scheduler's choices *)
Inductive action : Type :=
| ATimer                 (* the deadline of [ctx] passes *)
| AMain                  (* [main] executes its next statement *)
| AGen                   (* [Generator] executes its next statement *)
| AHandoff (i : nat)     (* rendezvous on [chIn]: [Generator] and worker [i] *)
| AWorker (i : nat)      (* worker [i] executes its next statement *)
| AForward (i : nat)     (* rendezvous on [outs[i]]: worker and collector [i] *)
| ACollector (i : nat)   (* collector [i] executes its next statement *)
| ACloser.               (* the closing goroutine executes its next statement *)

(** ** One step of each goroutine; [None] when it is blocked or finished *)

(** [Generator], lines 16-29. *)
Definition Generator_step (s : state) : option state :=
  match gen s with
  | GIdle => None
  | GSelect =>
      if ctx_done s then Some (set_gen GClose s)
      else Some (set_gen GSend (set_g (wrap64 (g s + 1)) s))
  | GSend => if chIn_closed s then Some (panic s) else None
  | GHookSum =>
      Some (set_gen GHookCount
              (set_inputSum (wrap64 (inputSum s + g s)) (emit (EvHookCall (g s)) s)))
  | GHookCount =>
      Some (set_gen GSelect
              (set_inputCount (wrap64 (inputCount s + 1)) (emit (EvHookRet (g s)) s)))
  | GClose =>
      if chIn_closed s then Some (panic s)
      else Some (set_gen GDone (set_chIn_closed true (emit EvCloseIn s)))
  | GDone => None
  end.

(** The send [ch <- g] of line 25 completing against the receive of line 52
    in worker [i]; [chIn] is unbuffered. *)
Definition handoff_step (i : nat) (s : state) : option state :=
  match gen s, workers s !! i with
  | GSend, Some WRecv =>
      if chIn_closed s then None
      else Some (set_gen GHookSum
                   (set_workers (<[i := WSend (g s)]> (workers s))
                      (emit (EvHandoff i (g s)) s)))
  | _, _ => None
  end.

(** [Worker], lines 48-60, for the worker of [outs[i]]. *)
Definition Worker_step (i : nat) (s : state) : option state :=
  match workers s !! i with
  | Some WRecv =>
      if chIn_closed s then Some (set_workers (<[i := WClose]> (workers s)) s)
      else None
  | Some (WSend v) =>
      match outs_closed s !! i with
      | Some true => Some (panic s)
      | _ => None
      end
  | Some WSleep => Some (set_workers (<[i := WRecv]> (workers s)) (emit (EvSleep i) s))
  | Some WClose =>
      match outs_closed s !! i with
      | Some false =>
          Some (set_workers (<[i := WDone]> (workers s))
                  (set_outs_closed (<[i := true]> (outs_closed s))
                     (emit (EvWorkerClose i) s)))
      | _ => Some (panic s)
      end
  | _ => None
  end.

(** The send [out <- v] of line 56 completing against the receive of line
    109 in collector [i]; [outs[i]] is unbuffered. *)
Definition forward_step (i : nat) (s : state) : option state :=
  match workers s !! i, collectors s !! i, outs_closed s !! i with
  | Some (WSend v), Some CRecv, Some false =>
      Some (set_workers (<[i := WSleep]> (workers s))
              (set_collectors (<[i := CInc v]> (collectors s))
                 (emit (EvForward i v) s)))
  | _, _, _ => None
  end.

Section Pool.

(** The size of the pool ([NumOut] in [main]); it is also the capacity of
    [chOut]. *)
Variable W : nat.

(** The collector of [outs[i]], lines 107-113. *)
Definition collector_step (i : nat) (s : state) : option state :=
  match collectors s !! i with
  | Some CRecv =>
      match outs_closed s !! i with
      | Some true => Some (set_collectors (<[i := CExit]> (collectors s)) s)
      | _ => None
      end
  | Some (CInc v) =>
      match amounts s !! i with
      | Some a =>
          Some (set_collectors (<[i := CSend v]> (collectors s))
                  (set_amounts (<[i := wrap64 (a + 1)]> (amounts s))
                     (emit (EvInc i) s)))
      | None => Some (panic s)
      end
  | Some (CSend v) =>
      if chOut_closed s then Some (panic s)
      else if (length (chOut s) <? W)%nat
           then Some (set_collectors (<[i := CRecv]> (collectors s))
                        (set_chOut (chOut s ++ [v]) (emit (EvMerge i v) s)))
           else None
  | Some CExit =>
      if wg s - 1 <? 0 then Some (panic s)
      else Some (set_collectors (<[i := CDone]> (collectors s))
                   (set_wg (wg s - 1) (emit (EvWgDone i) s)))
  | _ => None
  end.

(** The closing goroutine, lines 116-121. *)
Definition closer_step (s : state) : option state :=
  match closer s with
  | KWait => if wg s =? 0 then Some (set_closer KClose (emit EvWaited s)) else None
  | KClose =>
      if chOut_closed s then Some (panic s)
      else Some (set_closer KDone (set_chOut_closed true (emit EvCloseOut s)))
  | _ => None
  end.

(** [main], lines 83-149. *)
Definition main_step (s : state) : option state :=
  match main s with
  | MGoGen => Some (set_main (MGoWorker 0) (set_gen GSelect s))
  | MGoWorker i =>
      if (i <? W)%nat
      then Some (set_main (MGoWorker (S i)) (set_workers (<[i := WRecv]> (workers s)) s))
      else Some (set_main (MWgAdd 0) s)
  | MWgAdd j =>
      if (j <? W)%nat
      then Some (set_main (MGoCollector j) (set_wg (wg s + 1) s))
      else Some (set_main MGoCloser s)
  | MGoCollector j =>
      Some (set_main (MWgAdd (S j)) (set_collectors (<[j := CRecv]> (collectors s)) s))
  | MGoCloser => Some (set_main MRecv (set_closer KWait s))
  | MRecv =>
      match chOut s with
      | v :: rest => Some (set_main (MCount v) (set_chOut rest (emit (EvRead v) s)))
      | [] => if chOut_closed s then Some (set_main MPrintCounts s) else None
      end
  | MCount v => Some (set_main (MSum v) (set_count (wrap64 (count s + 1)) s))
  | MSum v => Some (set_main MRecv (set_sum (wrap64 (sum s + v)) s))
  | MPrintCounts =>
      Some (set_main MPrintSums (emit (EvPrintCounts (inputCount s) (count s)) s))
  | MPrintSums =>
      Some (set_main MPrintAmounts (emit (EvPrintSums (inputSum s) (sum s)) s))
  | MPrintAmounts =>
      Some (set_main MCheckSum (emit (EvPrintAmounts (amounts s)) s))
  | MCheckSum =>
      if inputSum s =? sum s
      then Some (set_main MCheckCount (emit (EvCheck ChkSum true) s))
      else Some (fatal ChkSum (emit (EvCheck ChkSum false) s))
  | MCheckCount =>
      if inputCount s =? count s
      then Some (set_main (MPartition 0) (emit (EvCheck ChkCount true) s))
      else Some (fatal ChkCount (emit (EvCheck ChkCount false) s))
  | MPartition k =>
      match amounts s !! k with
      | Some v =>
          Some (set_main (MPartition (S k)) (set_inputCount (wrap64 (inputCount s - v)) s))
      | None => Some (set_main MCheckPartition s)
      end
  | MCheckPartition =>
      if inputCount s =? 0
      then Some (set_main MReturn (emit (EvCheck ChkPartition true) s))
      else Some (fatal ChkPartition (emit (EvCheck ChkPartition false) s))
  | MReturn => Some (set_exit_code (Some 0) (set_ctx_done true (emit EvExit s)))
  end.

(** One step of the process.  Nothing runs once the process has exited. *)
Definition step (a : action) (s : state) : option state :=
  match exit_code s with
  | Some _ => None
  | None =>
      match a with
      | ATimer => if ctx_done s then None else Some (set_ctx_done true (emit EvDeadline s))
      | AMain => main_step s
      | AGen => Generator_step s
      | AHandoff i => handoff_step i s
      | AWorker i => Worker_step i s
      | AForward i => forward_step i s
      | ACollector i => collector_step i s
      | ACloser => closer_step s
      end
  end.

(** A run under a schedule. *)
Fixpoint exec (sched : list action) (s : state) : option state :=
  match sched with
  | [] => Some s
  | a :: rest =>
      match step a s with
      | Some s' => exec rest s'
      | None => None
      end
  end.

(** The state at line 83.  [expired] tells whether the deadline given to
    [context.WithTimeout] had already passed when the context was made, in
    which case the context is born cancelled. *)
Definition init (expired : bool) : state :=
  {| ctx_done := expired;
     gen := GIdle; g := 0; chIn_closed := false;
     inputSum := 0; inputCount := 0;
     workers := replicate W WIdle;
     outs_closed := replicate W false;
     collectors := replicate W CIdle;
     amounts := replicate W 0;
     chOut := []; chOut_closed := false;
     wg := 0; closer := KIdle; main := MGoGen;
     count := 0; sum := 0;
     exit_code := None; log := [] |}.

Definition reachable (expired : bool) (s : state) : Prop :=
  exists sched, exec sched (init expired) = Some s.

End Pool.

(** * What a log says, newest event first *)

Global Instance check_eq_dec : EqDecision check.
Proof. solve_decision. Defined.

Global Instance event_eq_dec : EqDecision event.
Proof. solve_decision. Defined.

(** Values that [Generator] has sent. *)
Fixpoint sent (l : list event) : list Z :=
  match l with
  | [] => []
  | EvHandoff _ v :: r => v :: sent r
  | _ :: r => sent r
  end.

(** Arguments of the calls of the hook. *)
Fixpoint hook_calls (l : list event) : list Z :=
  match l with
  | [] => []
  | EvHookCall v :: r => v :: hook_calls r
  | _ :: r => hook_calls r
  end.

(** Arguments of the calls of the hook that have returned. *)
Fixpoint hook_rets (l : list event) : list Z :=
  match l with
  | [] => []
  | EvHookRet v :: r => v :: hook_rets r
  | _ :: r => hook_rets r
  end.

(** Values that [main] has received from [chOut]. *)
Fixpoint read_values (l : list event) : list Z :=
  match l with
  | [] => []
  | EvRead v :: r => v :: read_values r
  | _ :: r => read_values r
  end.

(** Values sent into [chOut]. *)
Fixpoint merged (l : list event) : list Z :=
  match l with
  | [] => []
  | EvMerge _ v :: r => v :: merged r
  | _ :: r => merged r
  end.

(** Values received by worker [i]. *)
Fixpoint worker_in (i : nat) (l : list event) : list Z :=
  match l with
  | [] => []
  | EvHandoff j v :: r => if decide (j = i) then v :: worker_in i r else worker_in i r
  | _ :: r => worker_in i r
  end.

(** Values sent by worker [i], which are the values received by collector [i]. *)
Fixpoint worker_out (i : nat) (l : list event) : list Z :=
  match l with
  | [] => []
  | EvForward j v :: r => if decide (j = i) then v :: worker_out i r else worker_out i r
  | _ :: r => worker_out i r
  end.

(** Values sent into [chOut] by collector [i]. *)
Fixpoint collector_out (i : nat) (l : list event) : list Z :=
  match l with
  | [] => []
  | EvMerge j v :: r => if decide (j = i) then v :: collector_out i r else collector_out i r
  | _ :: r => collector_out i r
  end.

(** Number of occurrences of an event. *)
Fixpoint occurrences (e : event) (l : list event) : nat :=
  match l with
  | [] => 0
  | e' :: r => if decide (e' = e) then S (occurrences e r) else occurrences e r
  end.

(** The conditions evaluated so far, with their outcomes. *)
Fixpoint checks (l : list event) : list (check * bool) :=
  match l with
  | [] => []
  | EvCheck c b :: r => (c, b) :: checks r
  | _ :: r => checks r
  end.

(** The [log.Fatalf] calls of a log. *)
Fixpoint fatals (l : list event) : list check :=
  match l with
  | [] => []
  | EvFatal c :: r => c :: fatals r
  | _ :: r => fatals r
  end.

(** * The arithmetic of the report and of the checks *)

(** The sum of a slice of [int64], accumulated the way Go does. *)
Definition sum64 (l : list Z) : Z :=
  fold_left (fun acc v => wrap64 (acc + v)) l 0.

(** [main] running alone until it blocks or the process exits. *)
Fixpoint run_main (W : nat) (fuel : nat) (s : state) : state :=
  match fuel with
  | O => s
  | S f =>
      match step W AMain s with
      | Some s' => run_main W f s'
      | None => s
      end
  end.

(** The loop of lines 143-145 on [inputCount]. *)
Definition subtract_all (l : list Z) (x : Z) : Z :=
  fold_left (fun acc v => wrap64 (acc - v)) l x.

Arguments subtract_all : simpl never.

(** The first condition of lines 137-148 that fails, if any. *)
Definition verdict (s : state) : option check :=
  if inputSum s =? sum s then
    if inputCount s =? count s then
      if subtract_all (amounts s) (inputCount s) =? 0 then None
      else Some ChkPartition
    else Some ChkCount
  else Some ChkSum.

(** The three lines of the report, newest first. *)
Definition report (s : state) : list event :=
  [EvPrintAmounts (amounts s); EvPrintSums (inputSum s) (sum s);
   EvPrintCounts (inputCount s) (count s)].

(** The conditions that held before [c] was evaluated, newest first. *)
Definition passed_before (c : check) : list event :=
  match c with
  | ChkSum => []
  | ChkCount => [EvCheck ChkSum true]
  | ChkPartition => [EvCheck ChkCount true; EvCheck ChkSum true]
  end.

(** The conditions evaluated by lines 137-148, oldest first, when [v] is
    the first that fails. *)
Definition evaluated (v : option check) : list (check * bool) :=
  match v with
  | Some ChkSum => [(ChkSum, false)]
  | Some ChkCount => [(ChkSum, true); (ChkCount, false)]
  | Some ChkPartition => [(ChkSum, true); (ChkCount, true); (ChkPartition, false)]
  | None => [(ChkSum, true); (ChkCount, true); (ChkPartition, true)]
  end.

(** * The invariants of the runs *)

Definition sumf {A : Type} (f : A -> Z) (l : list A) : Z :=
  foldr (fun x acc => f x + acc) 0 l.

(** Workers started so far. *)
Definition wstarted (W : nat) (m : mpc) : nat :=
  match m with MGoGen => 0 | MGoWorker i => i | _ => W end.

(** Collectors started so far. *)
Definition cstarted (W : nat) (m : mpc) : nat :=
  match m with
  | MGoGen | MGoWorker _ => 0
  | MWgAdd j | MGoCollector j => j
  | _ => W
  end.

Definition closer_started (m : mpc) : bool :=
  match m with
  | MGoGen | MGoWorker _ | MWgAdd _ | MGoCollector _ | MGoCloser => false
  | _ => true
  end.

(** [main] has left the loop of lines 127-130. *)
Definition drained (m : mpc) : bool :=
  match m with
  | MPrintCounts | MPrintSums | MPrintAmounts | MCheckSum | MCheckCount
  | MPartition _ | MCheckPartition | MReturn => true
  | _ => false
  end.

(** A collector that has called neither [wg.Done()] nor is still to start. *)
Definition active (c : cpc) : Z :=
  match c with CIdle | CDone => 0 | _ => 1 end.

(** [wg.Add(1)] done for a collector that is not started yet. *)
Definition pending_add (m : mpc) : Z :=
  match m with MGoCollector _ => 1 | _ => 0 end.

Definition main_in_bounds (W : nat) (m : mpc) : Prop :=
  match m with
  | MGoWorker i => (i <= W)%nat
  | MWgAdd j => (j <= W)%nat
  | MGoCollector j => (j < W)%nat
  | MPartition k => (k <= W)%nat
  | _ => True
  end.

Record ctl_inv (W : nat) (s : state) : Prop := {
  ci_workers_len : length (workers s) = W;
  ci_outs_len : length (outs_closed s) = W;
  ci_collectors_len : length (collectors s) = W;
  ci_amounts_len : length (amounts s) = W;
  ci_main : main_in_bounds W (main s);
  ci_gen_idle : gen s = GIdle <-> main s = MGoGen;
  ci_worker_idle : forall i w, workers s !! i = Some w ->
      (w = WIdle <-> (wstarted W (main s) <= i)%nat);
  ci_collector_idle : forall i c, collectors s !! i = Some c ->
      (c = CIdle <-> (cstarted W (main s) <= i)%nat);
  ci_closer_idle : closer s = KIdle <-> closer_started (main s) = false;
  ci_chIn : chIn_closed s = true <-> gen s = GDone;
  ci_worker_exit : forall i w, workers s !! i = Some w ->
      w = WClose \/ w = WDone -> chIn_closed s = true;
  ci_outs : forall i, outs_closed s !! i = Some true <-> workers s !! i = Some WDone;
  ci_collector_exit : forall i c, collectors s !! i = Some c ->
      c = CExit \/ c = CDone -> outs_closed s !! i = Some true;
  ci_wg : wg s = sumf active (collectors s) + pending_add (main s);
  ci_closer : forall i c, collectors s !! i = Some c ->
      closer s = KClose \/ closer s = KDone -> c = CDone;
  ci_chOut : chOut_closed s = true <-> closer s = KDone;
  ci_drained : drained (main s) = true -> chOut_closed s = true /\ chOut s = [];
  ci_cap : (length (chOut s) <= W)%nat;
  ci_hook : gen s = GHookSum \/ gen s = GHookCount -> (0 < W)%nat;
  ci_no_panic : exit_code s <> Some 2
}.

Definition wload (f : Z -> Z) (w : wpc) : Z :=
  match w with WSend v => f v | _ => 0 end.

Definition cload (f : Z -> Z) (c : cpc) : Z :=
  match c with CInc v | CSend v => f v | _ => 0 end.

(** A collector that has counted a value it has not sent yet. *)
Definition cpast (c : cpc) : Z :=
  match c with CSend _ => 1 | _ => 0 end.

Definition mcount_pending (m : mpc) : Z :=
  match m with MCount _ => 1 | _ => 0 end.

Definition msum_pending (m : mpc) : Z :=
  match m with MCount v | MSum v => v | _ => 0 end.

(** Entries of [amounts] already subtracted from [inputCount]. *)
Definition pdone (W : nat) (m : mpc) : nat :=
  match m with
  | MPartition k => k
  | MCheckPartition | MReturn => W
  | _ => 0
  end.

Definition gsend_pending (p : gpc) : Z :=
  match p with GSend => 1 | _ => 0 end.

Definition hook_call_pending (p : gpc) (v : Z) : list Z :=
  match p with GHookSum => [v] | _ => [] end.

Definition hook_ret_pending (p : gpc) (v : Z) : list Z :=
  match p with GHookSum | GHookCount => [v] | _ => [] end.

(** [n], [n-1], ..., 1 as [int64] values. *)
Fixpoint numbers (n : nat) : list Z :=
  match n with
  | O => []
  | S k => wrap64 (Z.of_nat (S k)) :: numbers k
  end.

(** The conditions that [main] has evaluated when it is at [m], all true. *)
Definition checks_at (m : mpc) : list (check * bool) :=
  match m with
  | MCheckCount => [(ChkSum, true)]
  | MPartition _ | MCheckPartition => [(ChkCount, true); (ChkSum, true)]
  | MReturn => [(ChkPartition, true); (ChkCount, true); (ChkSum, true)]
  | _ => []
  end.

Record val_inv (W : nat) (s : state) : Prop := {
  vi_sent : sent (log s) = numbers (length (sent (log s)));
  vi_g : g s = wrap64 (Z.of_nat (length (sent (log s))) + gsend_pending (gen s));
  vi_calls : sent (log s) = hook_call_pending (gen s) (g s) ++ hook_calls (log s);
  vi_rets : sent (log s) = hook_ret_pending (gen s) (g s) ++ hook_rets (log s);
  vi_inputSum : inputSum s = wrap64 (sumf id (hook_calls (log s)));
  vi_inputCount :
    inputCount s =
    wrap64 (Z.of_nat (length (hook_rets (log s)))
            - sumf id (take (pdone W (main s)) (amounts s)));
  vi_flow : forall f,
    sumf f (sent (log s)) =
    sumf (wload f) (workers s) + sumf (cload f) (collectors s)
    + sumf f (chOut s) + sumf f (read_values (log s));
  vi_count :
    count s = wrap64 (Z.of_nat (length (read_values (log s))) - mcount_pending (main s));
  vi_sum :
    sum s = wrap64 (sumf id (read_values (log s)) - msum_pending (main s));
  vi_amounts :
    wrap64 (sumf id (amounts s)) =
    wrap64 (sumf cpast (collectors s) + Z.of_nat (length (chOut s))
            + Z.of_nat (length (read_values (log s))));
  vi_merged : merged (log s) = rev (chOut s) ++ read_values (log s);
  vi_checks : checks (log s) = checks_at (main s);
  vi_exit : exit_code s = None \/ (exit_code s = Some 0 /\ main s = MReturn)
}.

Definition wheld (w : wpc) : list Z :=
  match w with WSend v => [v] | _ => [] end.

Definition cheld (c : cpc) : list Z :=
  match c with CInc v | CSend v => [v] | _ => [] end.

Definition wnap (w : wpc) : nat :=
  match w with WSleep => 1 | _ => 0 end.

Definition cpastn (c : cpc) : nat :=
  match c with CSend _ => 1 | _ => 0 end.

Definition once (b : bool) : nat := if b then 1%nat else 0%nat.

Definition is_CDone (c : cpc) : bool :=
  match c with CDone => true | _ => false end.

Definition waited (k : kpc) : bool :=
  match k with KClose | KDone => true | _ => false end.

Definition exited (o : option Z) : bool :=
  match o with Some _ => true | None => false end.

(** The invariant of the lanes: worker [i], its channel [outs[i]],
    collector [i] and the slot [amounts[i]]. *)
Record lane_inv (s : state) : Prop := {
  li_worker : forall i w, workers s !! i = Some w ->
      worker_in i (log s) = wheld w ++ worker_out i (log s);
  li_sleep : forall i w, workers s !! i = Some w ->
      (occurrences (EvSleep i) (log s) + wnap w)%nat = length (worker_out i (log s));
  li_collector : forall i c, collectors s !! i = Some c ->
      worker_out i (log s) = cheld c ++ collector_out i (log s);
  li_incs : forall i c, collectors s !! i = Some c ->
      occurrences (EvInc i) (log s) = (length (collector_out i (log s)) + cpastn c)%nat;
  li_amount : forall i a, amounts s !! i = Some a ->
      a = wrap64 (Z.of_nat (occurrences (EvInc i) (log s)));
  li_wg_done : forall i c, collectors s !! i = Some c ->
      occurrences (EvWgDone i) (log s) = once (is_CDone c);
  li_worker_close : forall i b, outs_closed s !! i = Some b ->
      occurrences (EvWorkerClose i) (log s) = once b;
  li_close_in : occurrences EvCloseIn (log s) = once (chIn_closed s);
  li_close_out : occurrences EvCloseOut (log s) = once (chOut_closed s);
  li_waited : occurrences EvWaited (log s) = once (waited (closer s));
  li_exit : occurrences EvExit (log s) = once (exited (exit_code s))
}.

Record inv (W : nat) (s : state) : Prop := {
  inv_ctl : ctl_inv W s;
  inv_val : val_inv W s;
  inv_lane : lane_inv s
}.

(** As long as the values sent are fewer than 2^63, no slot has wrapped
    around: every slot is a natural number and the slots add up to the
    number of values counted so far. *)
Definition exact_inv (s : state) : Prop :=
  Z.of_nat (length (sent (log s))) <= max_int64 ->
  (forall i a, amounts s !! i = Some a -> 0 <= a) /\
  sumf id (amounts s) =
    sumf cpast (collectors s) + Z.of_nat (length (chOut s))
    + Z.of_nat (length (read_values (log s))).

Record exp_inv (s : state) : Prop := {
  ei_done : ctx_done s = true;
  ei_gen : gen s <> GSend /\ gen s <> GHookSum /\ gen s <> GHookCount;
  ei_sent : sent (log s) = [];
  ei_calls : hook_calls (log s) = [];
  ei_rets : hook_rets (log s) = [];
  ei_sum : inputSum s = 0
}.

(** In a log, newest event first: what precedes the close of [chOut] in
    time (the suffix) contains the return of [wg.Wait()] and the
    [wg.Done()] of every collector, and no send into [chOut] follows it. *)
Definition close_ordered (W : nat) (l : list event) : Prop :=
  forall l1 l2, l = l1 ++ EvCloseOut :: l2 ->
    In EvWaited l2 /\
    (forall i, (i < W)%nat -> In (EvWgDone i) l2) /\
    (forall i v, ~ In (EvMerge i v) l1).

(** * Progress, termination and the values in flight *)

(** A step that works off what is already in the pipeline: a step of a
    goroutine, not of the timer, other than [Generator] entering a new
    iteration at its [select]. *)
Definition moves_on (W : nat) (a : action) (s : state) : Prop :=
  a <> ATimer /\ (a = AGen -> gen s <> GSelect) /\ is_Some (step W a s).

(** [Generator] is at its [select] and worker [i] is waiting for a value of
    the open [chIn]. *)
Definition ready_for (i : nat) (s : state) : Prop :=
  gen s = GSelect /\ workers s !! i = Some WRecv /\ chIn_closed s = false.

(** The steps that are left to the process once the context is done are
    counted goroutine by goroutine.  A value still has to be handed on from
    stage to stage, and the steps it will cause downstream are charged to
    the goroutine that holds it: received by [main] and added to [count]
    and [sum] (3 steps for a value in the buffer of [chOut]), before that
    sent into [chOut] and counted in [amounts] by its collector, before
    that forwarded by its worker, which then sleeps. *)

(** [Generator]: at its [select] it has the [return] and the deferred
    [close] left; blocked in its send it has the hand-off, the two
    additions of the hook, the [select], the [return] and the [close] left,
    and the value sent costs 7 more steps than the worker that takes it
    would have taken without it. *)
Definition grank (p : gpc) : Z :=
  match p with
  | GIdle | GSelect => 2
  | GSend => 12
  | GHookSum => 4
  | GHookCount => 3
  | GClose => 1
  | GDone => 0
  end.

(** A worker: at its receive it has the [break] and the deferred [close]
    left; one more step when it sleeps; holding a value, the forward, the
    sleep and the 5 steps that the value costs its collector and [main]. *)
Definition wrank (w : wpc) : Z :=
  match w with
  | WIdle | WRecv => 2
  | WSend _ => 9
  | WSleep => 3
  | WClose => 1
  | WDone => 0
  end.

(** A collector: at its receive it has the end of its loop and the
    deferred [wg.Done()] left; holding a value, the increment, the send and
    the 3 steps that the value costs [main]. *)
Definition crank (c : cpc) : Z :=
  match c with
  | CIdle | CRecv => 2
  | CInc _ => 7
  | CSend _ => 6
  | CExit => 1
  | CDone => 0
  end.

(** The closing goroutine: the return of [wg.Wait()] and [close(chOut)]. *)
Definition krank (k : kpc) : Z :=
  match k with
  | KIdle | KWait => 2
  | KClose => 1
  | KDone => 0
  end.

(** [main], not counting the values it has yet to receive: from its
    receive on, the end of the loop, the three lines of the report, the two
    first checks, the W + 1 steps of the loop of lines 143-145, the last
    check; before that, the start of the goroutines. *)
Definition mrank (W : nat) (m : mpc) : Z :=
  match m with
  | MGoGen => 4 * Z.of_nat W + 12
  | MGoWorker i => 4 * Z.of_nat W + 11 - Z.of_nat i
  | MWgAdd j => 3 * Z.of_nat W + 10 - 2 * Z.of_nat j
  | MGoCollector j => 3 * Z.of_nat W + 9 - 2 * Z.of_nat j
  | MGoCloser => Z.of_nat W + 9
  | MCount _ => Z.of_nat W + 10
  | MSum _ => Z.of_nat W + 9
  | MRecv => Z.of_nat W + 8
  | MPrintCounts => Z.of_nat W + 7
  | MPrintSums => Z.of_nat W + 6
  | MPrintAmounts => Z.of_nat W + 5
  | MCheckSum => Z.of_nat W + 4
  | MCheckCount => Z.of_nat W + 3
  | MPartition k => Z.of_nat W + 2 - Z.of_nat k
  | MCheckPartition => 1
  | MReturn => 0
  end.

(** The step by which the process exits. *)
Definition alive (o : option Z) : Z :=
  match o with None => 1 | Some _ => 0 end.

(** An upper bound on the number of steps that the process can still take
    once the context is done; every step then uses up one unit of it. *)
Definition budget (W : nat) (s : state) : Z :=
  alive (exit_code s) + grank (gen s) + sumf wrank (workers s)
  + sumf crank (collectors s) + 3 * Z.of_nat (length (chOut s))
  + krank (closer s) + mrank W (main s).


(** [Generator] leaves its loop only through the [ctx.Done()] case. *)
Definition stopped_by_ctx (s : state) : Prop :=
  gen s = GClose \/ gen s = GDone -> ctx_done s = true.

(** The values on their way from [Generator] to [main]: held by a worker
    blocked in [out <- v], held by a collector, or in the buffer of
    [chOut]. *)
Definition in_flight (s : state) : list Z :=
  flat_map wheld (workers s) ++ flat_map cheld (collectors s) ++ chOut s.

(** 1 + 2 + ... + n. *)
Definition triangle (n : Z) : Z := n * (n + 1) / 2.

(** Every hand-off of a log went to a worker of the pool. *)
Definition lanes_in_pool (W : nat) (l : list event) : Prop :=
  forall i v, In (EvHandoff i v) l -> (i < W)%nat.

(** * Sample runs *)

(** One value through lane [i], from the [select] of [Generator] to the
    addition in [main]. *)
Definition lane (i : nat) : list action :=
  [AGen; AHandoff i; AGen; AGen; AForward i; ACollector i; ACollector i;
   AMain; AMain; AMain; AWorker i].

(** [main] starts every goroutine: lines 83-121. *)
Definition spawn (W : nat) : list action := repeat AMain (3 * W + 4).

(** [Generator] sees the cancellation and closes [chIn]; every worker, then
    every collector, sees its input closed and finishes; [chOut] is closed. *)
Definition wind_down (W : nat) : list action :=
  [AGen; AGen]
  ++ flat_map (fun i => [AWorker i; AWorker i]) (seq 0 W)
  ++ flat_map (fun i => [ACollector i; ACollector i]) (seq 0 W)
  ++ [ACloser; ACloser].

(** [main] leaves its loop, prints and checks: lines 127-149. *)
Definition finish (W : nat) : list action := repeat AMain (W + 9).

(** Three values through the lanes 0, 7 and 7 of the pool of [NumOut]
    workers, then the deadline and the shutdown. *)
Definition demo_closed : list action :=
  spawn NumOut ++ lane 0 ++ lane 7 ++ lane 7 ++ [ATimer] ++ wind_down NumOut.

Definition demo_drained : list action := demo_closed ++ [AMain].

Definition demo_run : list action := demo_closed ++ finish NumOut.

Definition demo_hook : list action :=
  spawn NumOut ++ lane 0 ++ [AGen; AHandoff 7].

Definition demo_cancelled : list action :=
  spawn NumOut ++ lane 0 ++ [ATimer].

Definition demo_expired : list action :=
  spawn NumOut ++ wind_down NumOut ++ finish NumOut.

(** The deadline passes while [Generator] is being started, before its
    first [select]. *)
Definition demo_late : list action := [AMain; ATimer].

Definition demo_worker_recv : list action :=
  spawn NumOut ++ lane 0 ++ [AGen].

Definition demo_fifo : list action :=
  spawn NumOut ++ lane 0 ++ lane 7 ++ lane 7 ++ [AGen; AHandoff 7].

Definition demo_counted : list action :=
  spawn NumOut ++ lane 0 ++ lane 7 ++
  [AGen; AHandoff 7; AGen; AGen; AForward 7; ACollector 7].

(** A state in which the tallies of the generator are off: [inputSum] is 7
    while nothing was generated or read. *)
Definition tampered_sum : state :=
  set_inputSum 7 (set_main MPrintCounts (init NumOut false)).

(** A state in which the slots of [amounts] do not add up to [inputCount]. *)
Definition tampered_partition : state :=
  set_count 5 (set_inputCount 5 (set_main MPrintCounts (init NumOut false))).

(** The deadline has passed, [Generator] is blocked in the send of the
    value 2. *)
Definition demo_last_send : list action :=
  spawn NumOut ++ lane 0 ++ [AGen; ATimer].

(** A value through lane [i] into the buffer of [chOut]. *)
Definition fill_buffer (i : nat) : list action :=
  [AGen; AHandoff i; AGen; AGen; AForward i; ACollector i; ACollector i; AWorker i].

(** A value through lane [i] up to the send of collector [i] into [chOut]. *)
Definition fill_collector (i : nat) : list action :=
  [AGen; AHandoff i; AGen; AGen; AForward i; ACollector i; AWorker i].

(** A value up to the send of worker [i] on [outs[i]]. *)
Definition fill_worker (i : nat) : list action :=
  [AGen; AHandoff i; AGen; AGen].

(** [main] does not receive; the pipeline fills up: the buffer of [chOut],
    then every collector, then every worker. *)
Definition demo_full : list action :=
  spawn NumOut ++ flat_map fill_buffer (seq 0 NumOut)
  ++ flat_map fill_collector (seq 0 NumOut)
  ++ flat_map fill_worker (seq 0 NumOut).

(** Two values through the lanes 0 and 1; the second overtakes the first
    on its way into [chOut]. *)
Definition demo_swap : list action :=
  spawn NumOut
  ++ [AGen; AHandoff 0; AGen; AGen; AGen; AHandoff 1; AGen; AGen;
      AForward 1; ACollector 1; ACollector 1;
      AForward 0; ACollector 0; ACollector 0;
      AMain; AMain; AMain; AMain; AMain; AMain; AWorker 0; AWorker 1; ATimer]
  ++ wind_down NumOut ++ finish NumOut.

(** The pipeline is full and [Generator] is blocked in its send: every
    worker is blocked in its own. *)
Definition demo_blocked : list action := demo_full ++ [AGen].

(** * Proofs *)

(** ** Sums over the tables of goroutines *)

Lemma sumf_insert {A : Type} (f : A -> Z) (l : list A) (i : nat) (a b : A) :
  l !! i = Some a -> sumf f (<[i := b]> l) = sumf f l - f a + f b.
Proof.
  revert i. induction l as [|x l IH]; intros [|i] Hl; simplify_eq/=; try lia.
  rewrite (IH _ Hl). lia.
Qed.

Lemma sumf_nonneg {A : Type} (f : A -> Z) (l : list A) :
  (forall x, 0 <= f x) -> 0 <= sumf f l.
Proof. intros Hf. induction l as [|x l IH]; simpl; [lia | specialize (Hf x); lia]. Qed.

Lemma sumf_lookup_le {A : Type} (f : A -> Z) (l : list A) (i : nat) (a : A) :
  (forall x, 0 <= f x) -> l !! i = Some a -> f a <= sumf f l.
Proof.
  intros Hf. revert i. induction l as [|x l IH]; intros [|i] Hl; simplify_eq/=.
  - pose proof (sumf_nonneg f l Hf). lia.
  - specialize (IH _ Hl). specialize (Hf x). lia.
Qed.

Lemma sumf_replicate {A : Type} (f : A -> Z) (n : nat) (x : A) :
  f x = 0 -> sumf f (replicate n x) = 0.
Proof. intros Hx. induction n; simpl; lia. Qed.

Lemma sumf_zero {A : Type} (f : A -> Z) (l : list A) :
  (forall i x, l !! i = Some x -> f x = 0) -> sumf f l = 0.
Proof.
  induction l as [|x l IH]; intros H; simpl; [done|].
  rewrite (H 0%nat x eq_refl), IH; [done|].
  intros i y Hy. apply (H (S i) y Hy).
Qed.

Lemma active_nonneg c : 0 <= active c.
Proof. destruct c; simpl; lia. Qed.

Lemma init_ctl W expired : ctl_inv W (init W expired).
Proof.
  split; simpl; rewrite ?length_replicate; try done.
  - intros i w [-> _]%lookup_replicate. split; [lia|done].
  - intros i w [-> _]%lookup_replicate. split; [lia|done].
  - intros i w [-> _]%lookup_replicate [?|?]; done.
  - intros i. split.
    + intros [? _]%lookup_replicate; done.
    + intros [? _]%lookup_replicate; done.
  - intros i w [-> _]%lookup_replicate [?|?]; done.
  - rewrite sumf_replicate; done.
  - intros i w _ [?|?]; done.
  - lia.
  - intros [?|?]; done.
Qed.

(** ** The control invariant holds along every run *)

Ltac step_inv H :=
  unfold step, main_step, Generator_step, handoff_step, Worker_step, forward_step,
    collector_step, closer_step, panic, fatal, emit in H;
  simpl in H; repeat case_match; simplify_eq.

Ltac bool_hyps :=
  repeat match goal with
  | H : (_ <? _)%nat = true |- _ => apply Nat.ltb_lt in H
  | H : (_ <? _)%nat = false |- _ => apply Nat.ltb_ge in H
  | H : (_ =? _) = true |- _ => apply Z.eqb_eq in H
  | H : (_ =? _) = false |- _ => apply Z.eqb_neq in H
  | H : (_ <? _) = true |- _ => apply Z.ltb_lt in H
  | H : (_ <? _) = false |- _ => apply Z.ltb_ge in H
  end.

(** Case split on whether the index looked up is the index updated. *)
Ltac split_index :=
  repeat match goal with
  | |- context [<[?i := _]> _ !! ?j] =>
      first [ rewrite (list_lookup_insert_eq _ i) by lia
            | rewrite (list_lookup_insert_ne _ i j) by done
            | destruct (decide (i = j)) as [->|] ]
  | H : context [<[?i := _]> _ !! ?j] |- _ =>
      first [ rewrite (list_lookup_insert_eq _ i) in H by lia
            | rewrite (list_lookup_insert_ne _ i j) in H by done
            | destruct (decide (i = j)) as [->|] ]
  end.

(** Instantiate the quantified facts of an invariant at every known lookup. *)
Ltac saturate :=
  repeat match goal with
  | H : forall (i : nat) (w : ?A), ?l !! i = Some w -> _, H' : ?l !! ?j = Some ?x |- _ =>
      let T := type of (H j x H') in
      lazymatch goal with
      | _ : T |- _ => fail
      | _ => pose proof (H j x H')
      end
  | H : forall i : nat, _ <-> _, H' : _ !! ?j = Some _ |- _ =>
      let T := type of (H j) in
      lazymatch goal with
      | _ : T |- _ => fail
      | _ => pose proof (H j)
      end
  | H : forall i : nat, _ <-> _ |- context [_ !! ?j] =>
      let T := type of (H j) in
      lazymatch goal with
      | _ : T |- _ => fail
      | _ => pose proof (H j)
      end
  end.

(** Every successful lookup is within the bounds of its list. *)
Ltac bounds :=
  repeat match goal with
  | H : ?l !! ?j = Some _ |- _ =>
      lazymatch goal with
      | _ : (j < length l)%nat |- _ => fail
      | _ => pose proof (lookup_lt_Some _ _ _ H)
      end
  | H : ?l !! ?j = None |- _ =>
      lazymatch goal with
      | _ : (length l <= j)%nat |- _ => fail
      | _ => pose proof (proj1 (lookup_ge_None l j) H)
      end
  end.

(** Name the entries of the tables at an index known to be in bounds. *)
Ltac entries :=
  repeat match goal with
  | Hi : (?i < ?n)%nat, HL : length ?l = ?n |- _ =>
      lazymatch goal with
      | _ : l !! i = Some _ |- _ => fail
      | _ => let x := fresh "x" in let Hx := fresh "Hx" in
             destruct (lookup_lt_is_Some_2 l i) as [x Hx]; [lia|]
      end
  end.

Ltac drop_quantified :=
  repeat match goal with
  | H : forall (i : nat) (w : _), _ !! i = Some w -> _ |- _ => clear H
  | H : forall i : nat, _ <-> _ |- _ => clear H
  end.

Ltac easy_prop :=
  solve [ assumption | discriminate | lia | congruence
        | left; congruence | right; congruence ].

Ltac forward :=
  repeat match goal with
  | H : _ <-> _ |- _ => destruct H
  | H : _ /\ _ |- _ => destruct H
  | H : _ \/ _ |- _ => destruct H
  | H : ?A -> _ |- _ =>
      lazymatch type of A with Prop => idtac end;
      let HA := fresh in
      assert (HA : A) by easy_prop;
      specialize (H HA); clear HA
  end.

Ltac open_goal :=
  repeat match goal with
  | |- _ <-> _ => split
  | |- _ /\ _ => split
  | |- _ -> _ => intro
  | |- forall _, _ => intro
  end.

Ltac finish :=
  drop_quantified; simpl in *; simplify_eq; open_goal; forward;
  try simplify_eq; simpl in *; easy_prop.

Lemma pending_add_nonneg m : 0 <= pending_add m.
Proof. destruct m; simpl; lia. Qed.

Lemma closer_started_no_add m : closer_started m = true -> pending_add m = 0.
Proof. destruct m; simpl; done. Qed.

Lemma closer_started_all W m : closer_started m = true -> cstarted W m = W.
Proof. destruct m; simpl; done. Qed.

Lemma active_zero c : active c = 0 -> c = CIdle \/ c = CDone.
Proof. destruct c; simpl; intros; auto; lia. Qed.

Lemma step_ctl W a s s' : ctl_inv W s -> step W a s = Some s' -> ctl_inv W s'.
Proof.
  intros I H. destruct s as [cd gp gv ci isum icnt ws oc cs am co coc wgc kp mp cn sm ec lg].
  step_inv H.
  all: destruct I as [Lw Lo Lc La Hmb Hgi Hwi Hci Hki Hin Hwe Hout Hce Hwg Hcl Hco Hdr Hcap Hhk Hnp];
    simpl in *; bool_hyps; bounds.
  all: entries.
  all: split; simpl; rewrite ?length_insert, ?length_app; simpl; try done.
  all: try (intuition (discriminate || congruence || lia); fail).
  all: try (erewrite sumf_insert by eassumption).
  all: try (intros; split_index; saturate; finish; fail).
  all: try match goal with
       | H : ?l !! ?i = Some CExit |- _ =>
           pose proof (sumf_lookup_le active l i _ active_nonneg H);
           pose proof (pending_add_nonneg mp)
       end.
  all: try (intros; split_index; saturate; finish; fail).
  (* [wg.Wait()] returns: every collector has called [wg.Done()] *)
  intros i c Hc _.
  assert (Hst : closer_started mp = true).
  { destruct (closer_started mp); [done|].
    destruct Hki as [_ Hk]. discriminate (Hk eq_refl). }
  pose proof (sumf_lookup_le active _ _ _ active_nonneg Hc) as Hle.
  pose proof (active_nonneg c).
  rewrite (closer_started_no_add _ Hst) in Hwg.
  assert (Hz : active c = 0) by lia.
  destruct (active_zero c Hz) as [->|]; [|done].
  pose proof (lookup_lt_Some _ _ _ Hc).
  apply Hci in Hc as [Hc _].
  rewrite (closer_started_all W _ Hst) in Hc.
  specialize (Hc eq_refl). lia.
Qed.

(** ** Facts about [wrap64] and sums *)

Lemma wrap64_range z : in_int64 (wrap64 z).
Proof.
  unfold in_int64, wrap64, min_int64, max_int64.
  pose proof (Z.mod_pos_bound (z + 2 ^ 63) (2 ^ 64) ltac:(lia)). lia.
Qed.

Lemma wrap64_id z : in_int64 z -> wrap64 z = z.
Proof.
  unfold in_int64, wrap64, min_int64, max_int64. intros Hz.
  rewrite Z.mod_small by lia. lia.
Qed.

Lemma wrap64_eqm a b k : a = b + k * 2 ^ 64 -> wrap64 a = wrap64 b.
Proof.
  intros ->. unfold wrap64.
  replace (b + k * 2 ^ 64 + 2 ^ 63) with (b + 2 ^ 63 + k * 2 ^ 64) by lia.
  by rewrite Z.mod_add by lia.
Qed.

Lemma wrap64_spec z : exists k, wrap64 z = z + k * 2 ^ 64.
Proof.
  exists (- ((z + 2 ^ 63) / 2 ^ 64)). unfold wrap64.
  rewrite Z.mod_eq by lia. lia.
Qed.

Lemma wrap64_add_l a b : wrap64 (wrap64 a + b) = wrap64 (a + b).
Proof. destruct (wrap64_spec a) as [k ->]. apply (wrap64_eqm _ _ k). lia. Qed.

Lemma wrap64_add_r a b : wrap64 (a + wrap64 b) = wrap64 (a + b).
Proof. destruct (wrap64_spec b) as [k ->]. apply (wrap64_eqm _ _ k). lia. Qed.

Lemma wrap64_sub_l a b : wrap64 (wrap64 a - b) = wrap64 (a - b).
Proof. destruct (wrap64_spec a) as [k ->]. apply (wrap64_eqm _ _ k). lia. Qed.

Lemma wrap64_sub_r a b : wrap64 (a - wrap64 b) = wrap64 (a - b).
Proof. destruct (wrap64_spec b) as [k ->]. apply (wrap64_eqm _ _ (- k)). lia. Qed.

Lemma wrap64_idem a : wrap64 (wrap64 a) = wrap64 a.
Proof. apply wrap64_id, wrap64_range. Qed.

Lemma wrap64_shift a b c : wrap64 a = wrap64 b -> wrap64 (a + c) = wrap64 (b + c).
Proof. intros H. by rewrite <- (wrap64_add_l a), H, wrap64_add_l. Qed.

Lemma wrap64_zero_iff a b :
  in_int64 b -> wrap64 (b - a) = 0 <-> wrap64 a = b.
Proof.
  intros Hb. split.
  - intros H. rewrite <- (wrap64_id b Hb).
    destruct (wrap64_spec (b - a)) as [k Hk]. apply (wrap64_eqm _ _ k). lia.
  - intros <-. rewrite wrap64_sub_l. by replace (a - a) with 0 by lia.
Qed.

Lemma sumf_app {A : Type} (f : A -> Z) (l1 l2 : list A) :
  sumf f (l1 ++ l2) = sumf f l1 + sumf f l2.
Proof. induction l1; simpl; lia. Qed.

Lemma sumf_one (l : list Z) : sumf (fun _ => 1) l = Z.of_nat (length l).
Proof. induction l; simpl; lia. Qed.

Lemma init_val W expired : val_inv W (init W expired).
Proof.
  split; simpl; try done.
  - intros f. rewrite !sumf_replicate; done.
  - rewrite !sumf_replicate; done.
  - by left.
Qed.

(** ** The value invariant holds along every run *)

(** Once [main] has left its receive loop, every other goroutine is done. *)
Lemma drained_quiet W s :
  ctl_inv W s -> drained (main s) = true ->
  (forall i w, workers s !! i = Some w -> w = WDone) /\
  (forall i c, collectors s !! i = Some c -> c = CDone) /\
  chOut s = [] /\ gen s <> GHookSum /\ gen s <> GHookCount.
Proof.
  intros I Hd. destruct (ci_drained _ _ I Hd) as [Hc He].
  assert (Hk : closer s = KDone) by (by apply (ci_chOut _ _ I)).
  assert (HC : forall i c, collectors s !! i = Some c -> c = CDone).
  { intros i c Hi. eapply (ci_closer _ _ I); eauto. }
  assert (HW : forall i w, workers s !! i = Some w -> w = WDone).
  { intros i w Hi. pose proof (lookup_lt_Some _ _ _ Hi) as Hlt.
    rewrite (ci_workers_len _ _ I), <- (ci_collectors_len _ _ I) in Hlt.
    destruct (lookup_lt_is_Some_2 _ _ Hlt) as [c Hci].
    pose proof (HC _ _ Hci) as ->.
    pose proof (ci_collector_exit _ _ I _ _ Hci (or_intror eq_refl)) as Ho.
    apply (ci_outs _ _ I) in Ho. congruence. }
  repeat split; [done..| |].
  - intros Hg. pose proof (ci_hook _ _ I (or_introl Hg)) as HW0.
    rewrite <- (ci_workers_len _ _ I) in HW0.
    destruct (lookup_lt_is_Some_2 _ _ HW0) as [w Hw].
    pose proof (HW _ _ Hw) as ->.
    pose proof (ci_worker_exit _ _ I _ _ Hw (or_intror eq_refl)) as Hin.
    apply (ci_chIn _ _ I) in Hin. congruence.
  - intros Hg. pose proof (ci_hook _ _ I (or_intror Hg)) as HW0.
    rewrite <- (ci_workers_len _ _ I) in HW0.
    destruct (lookup_lt_is_Some_2 _ _ HW0) as [w Hw].
    pose proof (HW _ _ Hw) as ->.
    pose proof (ci_worker_exit _ _ I _ _ Hw (or_intror eq_refl)) as Hin.
    apply (ci_chIn _ _ I) in Hin. congruence.
Qed.

Lemma pdone_not_drained W m : drained m = false -> pdone W m = 0%nat.
Proof. by destruct m. Qed.

Lemma pending_when_drained m :
  drained m = true -> mcount_pending m = 0 /\ msum_pending m = 0.
Proof. by destruct m. Qed.

(** Conservation at the end of the pipeline: all that was sent has been
    read, and the tallies agree. *)
Lemma drained_conservation W s :
  ctl_inv W s -> val_inv W s -> drained (main s) = true ->
  hook_calls (log s) = sent (log s) /\
  hook_rets (log s) = sent (log s) /\
  (forall f, sumf f (sent (log s)) = sumf f (read_values (log s))) /\
  inputSum s = sum s /\
  count s = wrap64 (Z.of_nat (length (sent (log s)))) /\
  wrap64 (sumf id (amounts s)) = count s /\
  inputCount s = wrap64 (count s - sumf id (take (pdone W (main s)) (amounts s))).
Proof.
  intros C I Hd.
  destruct (drained_quiet W s C Hd) as (HW & HC & Hch & Hg1 & Hg2).
  destruct (pending_when_drained _ Hd) as [Hp1 Hp2].
  assert (Hcalls : hook_calls (log s) = sent (log s)).
  { rewrite (vi_calls _ _ I). by destruct (gen s). }
  assert (Hrets : hook_rets (log s) = sent (log s)).
  { rewrite (vi_rets _ _ I). by destruct (gen s). }
  assert (Hflow : forall f, sumf f (sent (log s)) = sumf f (read_values (log s))).
  { intros f. rewrite (vi_flow _ _ I f), Hch.
    rewrite (sumf_zero (wload f)), (sumf_zero (cload f)); simpl; [lia| |].
    - intros i c Hc. by rewrite (HC _ _ Hc).
    - intros i w Hw. by rewrite (HW _ _ Hw). }
  assert (Hlen : Z.of_nat (length (sent (log s))) = Z.of_nat (length (read_values (log s)))).
  { rewrite <- !sumf_one. apply Hflow. }
  assert (Hcount : count s = wrap64 (Z.of_nat (length (sent (log s))))).
  { rewrite (vi_count _ _ I), Hp1, Hlen. f_equal. lia. }
  repeat split; try done.
  - rewrite (vi_inputSum _ _ I), (vi_sum _ _ I), Hcalls, Hp2, (Hflow id). f_equal. lia.
  - rewrite (vi_amounts _ _ I), Hcount, Hch, Hlen.
    rewrite (sumf_zero cpast); simpl; [f_equal; lia|].
    intros i c Hc. by rewrite (HC _ _ Hc).
  - rewrite (vi_inputCount _ _ I), Hcount, Hrets. by rewrite wrap64_sub_l.
Qed.

Ltac wrap_norm :=
  repeat first
    [ rewrite wrap64_add_l | rewrite wrap64_add_r
    | rewrite wrap64_sub_l | rewrite wrap64_sub_r ].

(** The three conditions of lines 137-148 hold when [main] evaluates them. *)
Lemma checks_pass W s :
  ctl_inv W s -> val_inv W s ->
  (main s = MCheckSum -> inputSum s = sum s) /\
  (main s = MCheckCount -> inputCount s = count s) /\
  (main s = MCheckPartition -> inputCount s = 0).
Proof.
  intros C I. split; [|split]; intros Hm.
  all: assert (Hd : drained (main s) = true) by (by rewrite Hm).
  all: destruct (drained_conservation W s C I Hd) as (_ & _ & _ & HS & HC & HA & HI).
  - done.
  - rewrite HI, Hm. simpl. rewrite Z.sub_0_r, HC. apply wrap64_idem.
  - rewrite HI, Hm. simpl.
    rewrite take_ge by (rewrite (ci_amounts_len _ _ C); lia).
    rewrite <- HA, wrap64_sub_l. by replace (_ - _) with 0 by lia.
Qed.

Lemma step_val W a s s' :
  ctl_inv W s -> val_inv W s -> step W a s = Some s' -> val_inv W s'.
Proof.
  intros C I H.
  pose proof (ci_no_panic _ _ (step_ctl _ _ _ _ C H)) as NP.
  pose proof (checks_pass W s C I) as Q.
  pose proof (drained_quiet W s C) as Q'.
  destruct s as [cd gp gv ci isum icnt ws oc cs am co coc wgc kp mp cn sm ec lg].
  step_inv H.
  all: simpl in NP; try done.
  all: destruct C as [Lw Lo Lc La Hmb Hgi Hwi Hci Hki Hin Hwe Hout Hce Hwg Hcl Hco Hdr Hcap Hhk Hnp];
    destruct I as [Vsent Vg Vcalls Vrets Vsum Vcnt Vflow Vcount Vsumr Vam Vmerged Vchecks Vexit];
    simpl in *; bool_hyps; bounds; entries; saturate; drop_quantified.
  all: forward; simplify_eq; simpl in *.
  all: split; simpl; try done; try (by left).
  all: try (intros f; specialize (Vflow f)).
  all: repeat (erewrite sumf_insert by eassumption); simpl.
  all: rewrite ?length_app, ?sumf_app; simpl.
  all: try lia.
  all: try (subst; wrap_norm; f_equal; simpl; lia).
  all: try congruence.
  all: try (right; done).
  all: try (rewrite Vmerged; simpl; rewrite ?rev_app_distr, <- ?app_assoc; done).
  all: try (f_equal; f_equal; lia).
  all: try (wrap_norm;
            match goal with
            | Hh : wrap64 ?S = wrap64 ?T |- wrap64 ?A = wrap64 ?B =>
                transitivity (wrap64 (S + (A - S))); [f_equal; lia|];
                rewrite (wrap64_shift _ _ (A - S) Hh); f_equal; lia
            end).
  all: try (erewrite take_S_r by eassumption; rewrite sumf_app; simpl;
            wrap_norm; f_equal; unfold id; lia).
  all: try (rewrite !take_ge by lia; done).
  all: try (f_equal; [f_equal; lia | assumption]).
  (* [amounts[i]++] happens before [main] starts subtracting *)
  destruct (drained mp) eqn:Hd.
  - destruct (Q' eq_refl) as (_ & HC & _).
    match goal with
    | Hc : cs !! _ = Some (CInc _) |- _ => by specialize (HC _ _ Hc)
    end.
  - by rewrite (pdone_not_drained _ _ Hd).
Qed.

(** ** The lane invariant, and all invariants together *)

Lemma init_lane W expired : lane_inv (init W expired).
Proof.
  split; simpl; try done.
  all: intros i x [-> _]%lookup_replicate; done.
Qed.

Lemma step_lane W a s s' :
  ctl_inv W s -> val_inv W s -> lane_inv s -> step W a s = Some s' -> lane_inv s'.
Proof.
  intros C V I H.
  pose proof (ci_no_panic _ _ (step_ctl _ _ _ _ C H)) as NP.
  pose proof (vi_exit _ _ (step_val _ _ _ _ C V H)) as NF.
  destruct s as [cd gp gv ci isum icnt ws oc cs am co coc wgc kp mp cn sm ec lg].
  step_inv H.
  all: simpl in NP, NF; try done.
  all: try (destruct NF as [?|[? ?]]; discriminate).
  all: destruct I as [Lwk Lsl Lco Lin Lam Lwd Lwc Lci Lcout Lwt Lex]; simpl in *; bool_hyps; bounds.
  all: split; simpl; try done.
  all: try (intros; split_index; simpl; repeat case_decide; simplify_eq;
            saturate; finish; fail).
  all: try (intros; split_index; simpl; repeat case_decide; simplify_eq;
            saturate; drop_quantified; forward; simplify_eq;
            wrap_norm; f_equal; lia).
  all: destruct C as [Lw Lo Lc La Hmb Hgi Hwi Hci Hki Hin Hwe Hout Hce Hwg Hcl Hco Hdr Hcap Hhk Hnp];
    simpl in *; entries.
  all: try (intros; split_index; simpl; repeat case_decide; simplify_eq;
            saturate; finish; fail).
Qed.

Lemma init_inv W expired : inv W (init W expired).
Proof. split; [apply init_ctl | apply init_val | apply init_lane]. Qed.

Lemma step_inv_all W a s s' : inv W s -> step W a s = Some s' -> inv W s'.
Proof.
  intros [C V L] H. split.
  - by eapply step_ctl.
  - by eapply step_val.
  - by eapply step_lane.
Qed.

Lemma exec_inv W sched : forall s s', inv W s -> exec W sched s = Some s' -> inv W s'.
Proof.
  induction sched as [|a sched IH]; intros s s' I H; simpl in H.
  - by simplify_eq.
  - destruct (step W a s) as [s1|] eqn:Hs; [|done].
    eapply IH; [|exact H]. by eapply step_inv_all.
Qed.

Lemma reachable_inv W expired s : reachable W expired s -> inv W s.
Proof. intros [sched H]. eapply exec_inv; [apply init_inv | exact H]. Qed.

(** The [int64] variables hold [int64] values. *)
Lemma reachable_int64 W expired s :
  reachable W expired s ->
  in_int64 (g s) /\ in_int64 (inputSum s) /\ in_int64 (inputCount s) /\
  in_int64 (count s) /\ in_int64 (sum s) /\
  (forall i a, amounts s !! i = Some a -> in_int64 a).
Proof.
  intros [C V L]%reachable_inv.
  rewrite (vi_g _ _ V), (vi_inputSum _ _ V), (vi_inputCount _ _ V),
    (vi_count _ _ V), (vi_sum _ _ V).
  repeat (split; [apply wrap64_range|]).
  intros i a Ha. rewrite (li_amount _ L _ _ Ha). apply wrap64_range.
Qed.

Lemma exec_app W sched1 sched2 s :
  exec W (sched1 ++ sched2) s =
  match exec W sched1 s with Some s1 => exec W sched2 s1 | None => None end.
Proof.
  revert s. induction sched1 as [|a l IH]; intros s; simpl; [done|].
  destruct (step W a s); [apply IH | done].
Qed.

Lemma reachable_exec W expired sched s s' :
  reachable W expired s -> exec W sched s = Some s' -> reachable W expired s'.
Proof.
  intros [sched0 H] Hs. exists (sched0 ++ sched). by rewrite exec_app, H.
Qed.

(** ** Without overflow the slots of [amounts] are plain counts *)

Lemma sumf_member_le {A : Type} (f : A -> Z) (l : list A) (i : nat) (a : A) :
  (forall j y, l !! j = Some y -> 0 <= f y) -> l !! i = Some a -> f a <= sumf f l.
Proof.
  revert i. induction l as [|x l IH]; intros i Hf Hl; [done|].
  assert (0 <= sumf f l).
  { clear IH Hl. induction l as [|y l IH]; simpl; [lia|].
    pose proof (Hf 1%nat y eq_refl).
    assert (0 <= sumf f l); [|lia].
    apply IH. intros [|j] z Hz; [apply (Hf 0%nat); by simplify_eq/=|].
    apply (Hf (S (S j))). done. }
  destruct i as [|i]; simplify_eq/=.
  - lia.
  - pose proof (Hf 0%nat x eq_refl).
    assert (f a <= sumf f l); [|lia].
    eapply IH; [|done]. intros j y Hy. apply (Hf (S j)). done.
Qed.

Lemma sumf_le {A : Type} (f h : A -> Z) (l : list A) :
  (forall x, f x <= h x) -> sumf f l <= sumf h l.
Proof. intros H. induction l as [|x l IH]; simpl; [lia|]. specialize (H x). lia. Qed.

(** A collector about to count holds a value that is not counted yet. *)
Lemma counted_lt_held (cs : list cpc) (i : nat) (v : Z) :
  cs !! i = Some (CInc v) -> sumf cpast cs + 1 <= sumf (cload (fun _ => 1)) cs.
Proof.
  intros Hc.
  pose proof (sumf_insert cpast cs i (CInc v) (CSend v) Hc) as H1.
  pose proof (sumf_insert (cload (fun _ => 1)) cs i (CInc v) (CSend v) Hc) as H2.
  pose proof (sumf_le cpast (cload (fun _ => 1)) (<[i := CSend v]> cs)) as H3.
  simpl in *. assert (forall x, cpast x <= cload (fun _ => 1) x) as H4
    by (intros []; simpl; lia).
  specialize (H3 H4). lia.
Qed.

Lemma init_exact W expired : exact_inv (init W expired).
Proof.
  intros _. simpl. split.
  - intros i a [-> _]%lookup_replicate. lia.
  - rewrite !sumf_replicate; done.
Qed.

Lemma wload_nonneg (ws : list wpc) : 0 <= sumf (wload (fun _ => 1)) ws.
Proof. apply sumf_nonneg. intros []; simpl; lia. Qed.

Lemma step_exact W a s s' :
  ctl_inv W s -> val_inv W s -> exact_inv s -> step W a s = Some s' -> exact_inv s'.
Proof.
  intros C V X H.
  pose proof (vi_flow _ _ V (fun _ => 1)) as F. rewrite !sumf_one in F.
  pose proof (wload_nonneg (workers s)) as Hw.
  unfold exact_inv in *.
  destruct s as [cd gp gv ci isum icnt ws oc cs am co coc wgc kp mp cn sm ec lg].
  step_inv H; simpl in *.
  all: try (intros Hb; destruct X as [X1 X2]; [lia|]; split; [done|]).
  all: destruct C as [Lw Lo Lc La Hmb Hgi Hwi Hci Hki Hin Hwe Hout Hce Hwg Hcl Hco Hdr Hcap Hhk Hnp];
    simpl in *; bool_hyps; bounds; entries.
  all: repeat (erewrite sumf_insert by eassumption); simpl.
  all: rewrite ?length_app; simpl.
  all: try lia.
  all: try (saturate; drop_quantified; forward; simplify_eq; simpl in *; lia).
  (* [amounts[i]++]: the slot is below the number of values sent *)
  intros Hb. destruct X as [X1 X2]; [lia|].
  match goal with
  | Ha : am !! ?i = Some ?z, Hc : cs !! ?i = Some (CInc ?v) |- _ =>
      pose proof (X1 _ _ Ha) as Hz;
      pose proof (sumf_member_le id am i z X1 Ha) as Hle;
      pose proof (counted_lt_held cs i v Hc) as Hlt
  end.
  unfold id in *.
  rewrite wrap64_id by (unfold in_int64, min_int64, max_int64 in *; lia).
  split; [|lia].
  intros j b [(-> & <- & _)|[_ Hj]]%list_lookup_insert_Some; [lia|eauto].
Qed.

(** The invariants at the end of a run. *)
Lemma exec_exact W sched : forall s s',
  inv W s -> exact_inv s -> exec W sched s = Some s' -> exact_inv s'.
Proof.
  induction sched as [|a sched IH]; intros s s' I X H; simpl in H.
  - by simplify_eq.
  - destruct (step W a s) as [s1|] eqn:Hs; [|done].
    eapply (IH s1); [by eapply step_inv_all| |done].
    destruct I as [C V L]. by eapply step_exact.
Qed.

Lemma reachable_exact W expired s : reachable W expired s -> exact_inv s.
Proof.
  intros [sched H]. eapply exec_exact; [apply init_inv|apply init_exact|exact H].
Qed.

(** ** Conservation *)

Lemma sumf_count (v : Z) (l : list Z) :
  sumf (fun x => if decide (x = v) then 1 else 0) l = Z.of_nat (count_occ Z.eq_dec l v).
Proof.
  induction l as [|x l IH]; simpl; [done|].
  rewrite IH. destruct (decide (x = v)), (Z.eq_dec x v); try done; lia.
Qed.

Lemma sumf_all_Permutation (l1 l2 : list Z) :
  (forall f, sumf f l1 = sumf f l2) -> Permutation l1 l2.
Proof.
  intros H. apply (Permutation_count_occ Z.eq_dec). intros v.
  apply Nat2Z.inj. rewrite <- !sumf_count. apply H.
Qed.

Lemma sum64_from (l : list Z) (a : Z) :
  fold_left (fun acc v => wrap64 (acc + v)) l (wrap64 a) = wrap64 (a + sumf id l).
Proof.
  revert a. induction l as [|x l IH]; intros a; simpl.
  - f_equal. lia.
  - rewrite wrap64_add_l, IH. f_equal. unfold id. lia.
Qed.

Lemma sum64_sumf (l : list Z) : sum64 l = wrap64 (sumf id l).
Proof. unfold sum64. change 0 with (wrap64 0) at 1. by rewrite sum64_from. Qed.

(** C1. Conservation.  In every run, once [main] has left its receive loop
    (a complete run of the pipeline): the values [main] has read from
    [chOut] are, as a multiset, the values [Generator] has sent;
    [inputSum == sum]; the slots of [amounts], added up as [int64], give
    [count]; [count] is the number of values sent, as an [int64]; and until
    [main] starts subtracting from it, [inputCount == count].  When fewer
    than 2^63 values were sent nothing has wrapped around: [count] is the
    number of values sent and the slots of [amounts] are natural numbers
    whose sum is that number. *)
Theorem conservation (W : nat) (expired : bool) (s : state) :
  reachable W expired s -> drained (main s) = true ->
  Permutation (read_values (log s)) (sent (log s)) /\
  inputSum s = sum s /\
  sum64 (amounts s) = count s /\
  count s = wrap64 (Z.of_nat (length (sent (log s)))) /\
  (pdone W (main s) = 0%nat -> inputCount s = count s) /\
  (Z.of_nat (length (sent (log s))) <= max_int64 ->
     count s = Z.of_nat (length (sent (log s))) /\
     sumf id (amounts s) = count s /\
     (forall i a, amounts s !! i = Some a -> 0 <= a)).
Proof.
  intros Hr Hd. pose proof (reachable_exact _ _ _ Hr) as X.
  apply reachable_inv in Hr as [C V _].
  destruct (drained_conservation W s C V Hd) as (_ & _ & Hf & HS & HC & HA & HI).
  destruct (drained_quiet W s C Hd) as (_ & HCD & Hch & _).
  repeat split; try done.
  - apply sumf_all_Permutation. intros f. by rewrite Hf.
  - by rewrite sum64_sumf.
  - intros Hp. rewrite HI, Hp. simpl. rewrite Z.sub_0_r, HC. apply wrap64_idem.
  - rewrite HC. apply wrap64_id. unfold in_int64, min_int64. lia.
  - destruct (X H) as [_ ->]. rewrite Hch, (sumf_zero cpast); simpl.
    + rewrite HC, wrap64_id by (unfold in_int64, min_int64; lia).
      rewrite <- !sumf_one. by rewrite Hf.
    + intros i c Hc. by rewrite (HCD _ _ Hc).
  - by destruct (X H).
Qed.

Lemma conservation_witness :
  exists s, exec NumOut demo_drained (init NumOut false) = Some s /\
    Permutation (read_values (log s)) (sent (log s)) /\
    inputSum s = 6 /\ sum s = 6 /\ sum64 (amounts s) = 3 /\ count s = 3 /\
    inputCount s = 3 /\ sumf id (amounts s) = 3.
Proof.
  eexists. split; [vm_compute; reflexivity|].
  match goal with
  | |- context [log ?s] =>
      assert (Hr : reachable NumOut false s)
        by (exists demo_drained; vm_compute; reflexivity);
      destruct (conservation NumOut false s Hr eq_refl) as (H1 & _)
  end.
  split; [exact H1|]. repeat split; reflexivity.
Defined.

(** A complete run of the program as it is configured: the process ends with
    status 0 and its log ends with the report and the three checks. *)
Example demo_run_completes :
  exists s, exec NumOut demo_run (init NumOut false) = Some s /\
    exit_code s = Some 0 /\
    take 7 (log s) =
      [EvExit; EvCheck ChkPartition true; EvCheck ChkCount true;
       EvCheck ChkSum true;
       EvPrintAmounts ([1] ++ replicate 6 0 ++ [2] ++ replicate 17 0);
       EvPrintSums 6 6; EvPrintCounts 3 3].
Proof. eexists. split; [vm_compute; reflexivity|]. split; reflexivity. Qed.

(** ** The sequence of [Generator] *)

Lemma rev_numbers (n : nat) :
  rev (numbers n) = map (fun k => wrap64 (Z.of_nat k)) (seq 1 n).
Proof.
  induction n as [|n IH]; [done|].
  rewrite seq_S, map_app. simpl numbers. simpl rev. by rewrite IH.
Qed.

Lemma numbers_nth (n k : nat) (v : Z) :
  rev (numbers n) !! k = Some v -> v = wrap64 (Z.of_nat (S k)) /\ (k < n)%nat.
Proof.
  rewrite rev_numbers. intros H.
  change (map ?f ?l) with (f <$> l) in H.
  rewrite list_lookup_fmap in H.
  destruct (seq 1 n !! k) as [j|] eqn:Hj; simplify_eq/=.
  apply lookup_seq in Hj as [-> ?]. done.
Qed.

(** C2. [Generator] sends 1, 2, 3, ... ; the k-th value sent is the
    [int64] k, hence exactly k as long as k fits in an [int64], and each
    value is then the one before plus one; each value is
    passed to the hook right after it is sent, and the hook has returned
    before the next value is produced, so that whenever [Generator] is not
    inside the hook the hook has been called once for each value sent, in
    the order 1, ..., n. *)
Theorem Generator_sequence (W : nat) (expired : bool) (s : state) :
  reachable W expired s ->
  (forall k v, rev (sent (log s)) !! k = Some v ->
     v = wrap64 (Z.of_nat (S k)) /\
     (Z.of_nat (S k) <= max_int64 -> v = Z.of_nat (S k))) /\
  (forall k v v', rev (sent (log s)) !! k = Some v ->
     rev (sent (log s)) !! S k = Some v' ->
     Z.of_nat (S (S k)) <= max_int64 -> v' = v + 1) /\
  rev (sent (log s)) = rev (hook_calls (log s)) ++ hook_call_pending (gen s) (g s) /\
  rev (sent (log s)) = rev (hook_rets (log s)) ++ hook_ret_pending (gen s) (g s) /\
  (gen s = GHookSum \/ gen s = GHookCount -> head (sent (log s)) = Some (g s)) /\
  (gen s = GSend ->
     hook_rets (log s) = sent (log s) /\
     g s = wrap64 (Z.of_nat (S (length (sent (log s)))))) /\
  (gen s <> GHookSum -> gen s <> GHookCount ->
     rev (hook_calls (log s)) =
       map (fun k => wrap64 (Z.of_nat k)) (seq 1 (length (sent (log s)))) /\
     hook_rets (log s) = hook_calls (log s)).
Proof.
  intros [C V _]%reachable_inv.
  pose proof (vi_sent _ _ V) as Hs. pose proof (vi_calls _ _ V) as Hc.
  pose proof (vi_rets _ _ V) as Hr. pose proof (vi_g _ _ V) as Hg.
  split; [|split; [|split; [|split; [|split; [|split]]]]].
  - intros k v Hk. rewrite Hs in Hk. apply numbers_nth in Hk as [-> Hlt].
    split; [done|]. intros Hle. apply wrap64_id.
    unfold in_int64, min_int64. lia.
  - intros k v v' Hk Hk' Hle. rewrite Hs in Hk, Hk'.
    apply numbers_nth in Hk as [-> _]. apply numbers_nth in Hk' as [-> _].
    rewrite !wrap64_id by (unfold in_int64, min_int64; lia). lia.
  - rewrite Hc at 1. rewrite rev_app_distr. by destruct (gen s).
  - rewrite Hr at 1. rewrite rev_app_distr. by destruct (gen s).
  - intros [Hp|Hp]; rewrite Hr, Hp; done.
  - intros Hp. rewrite Hp in *. simpl in *. split; [done|].
    rewrite Hg. f_equal. lia.
  - intros H1 H2.
    assert (Hcs : hook_calls (log s) = sent (log s)).
    { rewrite Hc. by destruct (gen s). }
    assert (Hrs : hook_rets (log s) = sent (log s)).
    { rewrite Hr. by destruct (gen s). }
    split; [|congruence].
    rewrite Hcs. rewrite Hs at 1. apply rev_numbers.
Qed.

Lemma Generator_sequence_witness :
  exists s, exec NumOut demo_hook (init NumOut false) = Some s /\
    gen s = GHookSum /\ g s = 2 /\ rev (sent (log s)) = [1; 2] /\
    rev (hook_calls (log s)) = [1] /\
    (forall k v, rev (sent (log s)) !! k = Some v ->
       v = wrap64 (Z.of_nat (S k)) /\
       (Z.of_nat (S k) <= max_int64 -> v = Z.of_nat (S k))).
Proof.
  eexists. split; [vm_compute; reflexivity|].
  do 4 (split; [reflexivity|]).
  match goal with
  | |- context [log ?s] =>
      assert (Hr : reachable NumOut false s)
        by (exists demo_hook; vm_compute; reflexivity);
      destruct (Generator_sequence NumOut false s Hr) as (H & _)
  end.
  exact H.
Defined.

(** ** The close of [chIn] and the expired deadline *)

Lemma chIn_closed_by W a s s' :
  step W a s = Some s' -> chIn_closed s' <> chIn_closed s ->
  a = AGen /\ gen s = GClose /\ gen s' = GDone /\ log s' = EvCloseIn :: log s.
Proof.
  intros H Hne. destruct s as [cd gp gv ci isum icnt ws oc cs am co coc wgc kp mp cn sm ec lg].
  step_inv H; simpl in *; done.
Qed.

Lemma GClose_entered W a s s' :
  step W a s = Some s' -> gen s' = GClose -> gen s <> GClose ->
  a = AGen /\ gen s = GSelect /\ ctx_done s = true.
Proof.
  intros H H1 H2. destruct s as [cd gp gv ci isum icnt ws oc cs am co coc wgc kp mp cn sm ec lg].
  step_inv H; simpl in *; done.
Qed.

Lemma Generator_cancelled W s :
  exit_code s = None -> gen s = GSelect -> ctx_done s = true -> chIn_closed s = false ->
  exists s1 s2,
    step W AGen s = Some s1 /\ gen s1 = GClose /\
    step W AGen s1 = Some s2 /\ gen s2 = GDone /\ chIn_closed s2 = true /\
    log s2 = EvCloseIn :: log s /\ step W AGen s2 = None.
Proof.
  intros He Hg Hc Hi. destruct s as [cd gp gv ci isum icnt ws oc cs am co coc wgc kp mp cn sm ec lg].
  simpl in *; subst.
  eexists _, _. unfold step, Generator_step; simpl.
  repeat split; reflexivity.
Qed.

(** C3. In every run [chIn] is closed at most once, by [Generator] and by
    nobody else; it is closed exactly when [Generator] has returned; no run
    panics, so a second [close] never happens; [Generator] leaves its loop
    only through the [ctx.Done()] case, and once it sees the cancellation
    its next two steps are the [return] and the deferred [close(ch)], after
    which it is finished. *)
Theorem Generator_close_once (W : nat) (expired : bool) (s : state) :
  reachable W expired s ->
  occurrences EvCloseIn (log s) = once (chIn_closed s) /\
  (occurrences EvCloseIn (log s) <= 1)%nat /\
  (chIn_closed s = true <-> gen s = GDone) /\
  exit_code s <> Some 2 /\
  (forall a s', step W a s = Some s' -> chIn_closed s' <> chIn_closed s ->
     a = AGen /\ gen s = GClose /\ gen s' = GDone /\ log s' = EvCloseIn :: log s) /\
  (forall a s', step W a s = Some s' -> gen s' = GClose -> gen s <> GClose ->
     a = AGen /\ gen s = GSelect /\ ctx_done s = true) /\
  (exit_code s = None -> gen s = GSelect -> ctx_done s = true ->
     exists s1 s2,
       step W AGen s = Some s1 /\ gen s1 = GClose /\
       step W AGen s1 = Some s2 /\ gen s2 = GDone /\ chIn_closed s2 = true /\
       log s2 = EvCloseIn :: log s /\ step W AGen s2 = None).
Proof.
  intros [C V L]%reachable_inv.
  repeat split.
  - apply (li_close_in _ L).
  - rewrite (li_close_in _ L). destruct (chIn_closed s); simpl; lia.
  - apply (ci_chIn _ _ C).
  - apply (ci_chIn _ _ C).
  - apply (ci_no_panic _ _ C).
  - eapply chIn_closed_by; eauto.
  - eapply chIn_closed_by; eauto.
  - eapply chIn_closed_by; eauto.
  - eapply chIn_closed_by; eauto.
  - eapply GClose_entered; eauto.
  - eapply GClose_entered; eauto.
  - eapply GClose_entered; eauto.
  - intros He Hg Hc. apply Generator_cancelled; try done.
    destruct (chIn_closed s) eqn:Hi; [|done].
    apply (ci_chIn _ _ C) in Hi. congruence.
Qed.

Lemma Generator_close_once_witness :
  exists s, exec NumOut demo_cancelled (init NumOut false) = Some s /\
    exit_code s = None /\ gen s = GSelect /\ ctx_done s = true /\
    occurrences EvCloseIn (log s) = 0%nat /\
    exists s1 s2,
      step NumOut AGen s = Some s1 /\ gen s1 = GClose /\
      step NumOut AGen s1 = Some s2 /\ gen s2 = GDone /\ chIn_closed s2 = true /\
      log s2 = EvCloseIn :: log s /\ step NumOut AGen s2 = None.
Proof.
  eexists. split; [vm_compute; reflexivity|].
  do 4 (split; [reflexivity|]).
  match goal with
  | |- context [log ?s] =>
      assert (Hr : reachable NumOut false s)
        by (exists demo_cancelled; vm_compute; reflexivity);
      destruct (Generator_close_once NumOut false s Hr) as (_ & _ & _ & _ & _ & _ & H)
  end.
  exact (H eq_refl eq_refl eq_refl).
Defined.

Lemma step_exp W a s s' : exp_inv s -> step W a s = Some s' -> exp_inv s'.
Proof.
  intros [H1 (H2 & H3 & H4) H5 H6 H7 H8] H.
  destruct s as [cd gp gv ci isum icnt ws oc cs am co coc wgc kp mp cn sm ec lg].
  step_inv H; simpl in *.
  all: split; simpl; try done.
Qed.

Lemma exec_exp W sched : forall s s', exp_inv s -> exec W sched s = Some s' -> exp_inv s'.
Proof.
  induction sched as [|a sched IH]; intros s s' I H; simpl in H.
  - by simplify_eq.
  - destruct (step W a s) as [s1|] eqn:Hs; [|done].
    eapply IH; [|exact H]. by eapply step_exp.
Qed.

(** Before [Generator] is started nothing has been sent. *)
Lemma step_idle W a s s' :
  (gen s = GIdle -> sent (log s) = []) -> step W a s = Some s' ->
  gen s' = GIdle -> sent (log s') = [].
Proof.
  intros I H.
  destruct s as [cd gp gv ci isum icnt ws oc cs am co coc wgc kp mp cn sm ec lg].
  step_inv H; simpl in *; done.
Qed.

Lemma idle_nothing_sent W expired s :
  reachable W expired s -> gen s = GIdle -> sent (log s) = [].
Proof.
  intros [sched H]. revert s H.
  induction sched as [|a sched IH] using rev_ind; intros s H.
  - by simplify_eq/=.
  - rewrite exec_app in H.
    destruct (exec W sched (init W expired)) as [s1|] eqn:H1; [|done].
    simpl in H. destruct (step W a s1) as [s2|] eqn:H2; simplify_eq.
    eapply step_idle; [|exact H2]. by apply IH.
Qed.

(** The context is done before the first [select] of [Generator]. *)
Lemma expired_at_start W expired s :
  reachable W expired s -> ctx_done s = true ->
  gen s = GIdle \/ (gen s = GSelect /\ sent (log s) = []) -> exp_inv s.
Proof.
  intros Hr Hd Hg. pose proof (reachable_inv _ _ _ Hr) as [C V L].
  assert (Hs : sent (log s) = []).
  { destruct Hg as [Hg|[_ Hs]]; [|done]. by eapply idle_nothing_sent. }
  assert (Hp : hook_call_pending (gen s) (g s) = [] /\
               hook_ret_pending (gen s) (g s) = []).
  { destruct Hg as [-> |[-> _]]; done. }
  destruct Hp as [Hp1 Hp2].
  pose proof (vi_calls _ _ V) as Hc. rewrite Hs, Hp1 in Hc. simpl in Hc.
  pose proof (vi_rets _ _ V) as Hrt. rewrite Hs, Hp2 in Hrt. simpl in Hrt.
  split; try done.
  - destruct Hg as [-> |[-> _]]; done.
  - by rewrite (vi_inputSum _ _ V), <- Hc.
Qed.

Lemma worker_in_sent i l : sent l = [] -> worker_in i l = [].
Proof.
  induction l as [|e l IH]; simpl; [done|].
  destruct e; simpl; try done.
Qed.

Lemma worker_in_length i l : (length (worker_in i l) <= length (sent l))%nat.
Proof.
  induction l as [|e l IH]; simpl; [done|].
  destruct e; simpl; try done. case_decide; simpl; lia.
Qed.

(** Nothing sent: nothing counted. *)
Lemma amounts_zero W s :
  inv W s -> sent (log s) = [] ->
  forall i a, amounts s !! i = Some a -> a = 0.
Proof.
  intros [C V L] Hs i a Ha.
  pose proof (lookup_lt_Some _ _ _ Ha) as Hlt.
  rewrite (ci_amounts_len _ _ C) in Hlt.
  destruct (lookup_lt_is_Some_2 (workers s) i) as [w Hw];
    [by rewrite (ci_workers_len _ _ C)|].
  destruct (lookup_lt_is_Some_2 (collectors s) i) as [c Hc];
    [by rewrite (ci_collectors_len _ _ C)|].
  pose proof (li_worker _ L _ _ Hw) as H1.
  rewrite (worker_in_sent _ _ Hs) in H1.
  symmetry in H1. apply app_eq_nil in H1 as [_ H1].
  pose proof (li_collector _ L _ _ Hc) as H2. rewrite H1 in H2.
  symmetry in H2. apply app_eq_nil in H2 as [H2 H3].
  pose proof (li_incs _ L _ _ Hc) as H4. rewrite H3 in H4.
  rewrite (li_amount _ L _ _ Ha), H4.
  destruct c; simplify_eq/=; done.
Qed.

(** C4. When the context is already done as [Generator] starts, be it
    because the deadline had passed when the context was made (deadline 0)
    or because it passes before the first [select] of [Generator], that
    [select] takes the [ctx.Done()] case: in all that follows no value is
    sent and the hook is never called, so the count of the generator is 0,
    which is in {0, 1}. *)
Theorem Generator_expired
    (W : nat) (expired : bool) (s0 : state) (sched : list action) (s : state) :
  reachable W expired s0 -> ctx_done s0 = true ->
  gen s0 = GIdle \/ (gen s0 = GSelect /\ sent (log s0) = []) ->
  exec W sched s0 = Some s ->
  (length (sent (log s)) <= 1)%nat /\
  (inputCount s = 0 \/ inputCount s = 1) /\
  sent (log s) = [] /\ hook_calls (log s) = [] /\
  inputCount s = 0 /\ inputSum s = 0.
Proof.
  intros Hr0 Hd Hg Hs.
  pose proof (reachable_inv _ _ _ (reachable_exec _ _ _ _ _ Hr0 Hs)) as I.
  assert (E : exp_inv s).
  { eapply exec_exp; [|exact Hs]. by eapply expired_at_start. }
  destruct E as [_ _ Hsent Hc Hrt Hsum].
  assert (Hcnt : inputCount s = 0).
  { rewrite (vi_inputCount _ _ (inv_val _ _ I)), Hrt. simpl.
    rewrite (sumf_zero id); [done|].
    intros i a [Ha _]%lookup_take_Some. unfold id.
    eapply amounts_zero; eauto. }
  rewrite Hsent. simpl. repeat split; try done; try lia.
Qed.

Lemma Generator_expired_witness :
  (exists s, exec NumOut demo_expired (init NumOut true) = Some s /\
     exit_code s = Some 0 /\
     (length (sent (log s)) <= 1)%nat /\
     (inputCount s = 0 \/ inputCount s = 1) /\
     sent (log s) = [] /\ hook_calls (log s) = [] /\
     inputCount s = 0 /\ inputSum s = 0) /\
  (exists s0 s, exec NumOut demo_late (init NumOut false) = Some s0 /\
     exec NumOut (tl demo_expired) s0 = Some s /\
     exit_code s = Some 0 /\
     (length (sent (log s)) <= 1)%nat /\
     (inputCount s = 0 \/ inputCount s = 1) /\
     sent (log s) = [] /\ hook_calls (log s) = [] /\
     inputCount s = 0 /\ inputSum s = 0).
Proof.
  split.
  - eexists. split; [vm_compute; reflexivity|].
    split; [reflexivity|].
    apply (Generator_expired NumOut true (init NumOut true) demo_expired).
    + by exists [].
    + reflexivity.
    + by left.
    + vm_compute. reflexivity.
  - eexists _, _. split; [vm_compute; reflexivity|].
    split; [vm_compute; reflexivity|].
    split; [reflexivity|].
    eapply (Generator_expired NumOut false _ (tl demo_expired)).
    + exists demo_late. vm_compute. reflexivity.
    + reflexivity.
    + right. split; reflexivity.
    + vm_compute. reflexivity.
Defined.

(** ** One worker *)

(** Symbolic execution of one step from a state given by equations. *)
Ltac sym_step :=
  unfold step, Worker_step, handoff_step, forward_step, collector_step; simpl;
  rewrite ?list_lookup_insert_eq by (rewrite ?length_insert; lia);
  repeat match goal with
  | H : _ !! _ = Some _ |- _ => rewrite H
  end; simpl.

Ltac sym_run :=
  repeat match goal with |- _ /\ _ => split end;
  first [ reflexivity | sym_step; reflexivity ].

Lemma outs_open W s i w :
  ctl_inv W s -> workers s !! i = Some w -> w <> WDone ->
  outs_closed s !! i = Some false.
Proof.
  intros C Hw Hne.
  destruct (lookup_lt_is_Some_2 (outs_closed s) i) as [b Hb].
  { rewrite (ci_outs_len _ _ C), <- (ci_workers_len _ _ C). by eapply lookup_lt_Some. }
  destruct b; [|done]. apply (ci_outs _ _ C) in Hb. congruence.
Qed.

Lemma Worker_stops W s i :
  exit_code s = None -> workers s !! i = Some WRecv -> chIn_closed s = true ->
  outs_closed s !! i = Some false ->
  exists s1 s2,
    step W (AWorker i) s = Some s1 /\ workers s1 !! i = Some WClose /\
    log s1 = log s /\
    step W (AWorker i) s1 = Some s2 /\ workers s2 !! i = Some WDone /\
    outs_closed s2 !! i = Some true /\ log s2 = EvWorkerClose i :: log s /\
    step W (AWorker i) s2 = None.
Proof.
  intros He Hw Hc Ho.
  pose proof (lookup_lt_Some _ _ _ Hw) as Hlt.
  pose proof (lookup_lt_Some _ _ _ Ho) as Hlo.
  destruct s as [cd gp gv ci isum icnt ws oc cs am co coc wgc kp mp cn sm ec lg].
  simpl in *; subst.
  eexists _, _. sym_run.
Qed.

Lemma Worker_forwards W s i :
  exit_code s = None -> gen s = GSend -> chIn_closed s = false ->
  workers s !! i = Some WRecv -> collectors s !! i = Some CRecv ->
  outs_closed s !! i = Some false ->
  exists s1 s2 s3,
    step W (AHandoff i) s = Some s1 /\ workers s1 !! i = Some (WSend (g s)) /\
    step W (AForward i) s1 = Some s2 /\ workers s2 !! i = Some WSleep /\
    collectors s2 !! i = Some (CInc (g s)) /\
    step W (AWorker i) s2 = Some s3 /\ workers s3 !! i = Some WRecv /\
    log s3 = EvSleep i :: EvForward i (g s) :: EvHandoff i (g s) :: log s.
Proof.
  intros He Hg Hc Hw Hco Ho.
  pose proof (lookup_lt_Some _ _ _ Hw) as Hlt.
  pose proof (lookup_lt_Some _ _ _ Hco) as Hlc.
  destruct s as [cd gp gv ci isum icnt ws oc cs am co coc wgc kp mp cn sm ec lg].
  simpl in *; subst.
  eexists _, _, _. sym_run.
Qed.

(** C5. Every worker receives from [chIn]; a value received is sent on
    [outs[i]] unchanged, to collector [i], and the worker then sleeps before
    it receives again; when the receive reports that [chIn] is closed the
    worker closes [outs[i]], once, and stops.  Along every run the values
    worker [i] has sent are the values it has received, but for the one it
    may hold: nothing is changed, dropped or sent twice. *)
Theorem Worker_loop (W : nat) (expired : bool) (s : state) (i : nat) (w : wpc) :
  reachable W expired s -> workers s !! i = Some w ->
  worker_in i (log s) = wheld w ++ worker_out i (log s) /\
  (occurrences (EvSleep i) (log s) + wnap w)%nat = length (worker_out i (log s)) /\
  (exists b, outs_closed s !! i = Some b /\
     occurrences (EvWorkerClose i) (log s) = once b /\ (b = true <-> w = WDone)) /\
  (w = WClose \/ w = WDone -> chIn_closed s = true) /\
  (exit_code s = None -> w = WRecv -> chIn_closed s = false ->
     step W (AWorker i) s = None) /\
  (exit_code s = None -> w = WRecv -> chIn_closed s = true ->
     exists s1 s2,
       step W (AWorker i) s = Some s1 /\ workers s1 !! i = Some WClose /\
       log s1 = log s /\
       step W (AWorker i) s1 = Some s2 /\ workers s2 !! i = Some WDone /\
       outs_closed s2 !! i = Some true /\ log s2 = EvWorkerClose i :: log s /\
       step W (AWorker i) s2 = None) /\
  (exit_code s = None -> w = WRecv -> gen s = GSend ->
     collectors s !! i = Some CRecv ->
     exists s1 s2 s3,
       step W (AHandoff i) s = Some s1 /\ workers s1 !! i = Some (WSend (g s)) /\
       step W (AForward i) s1 = Some s2 /\ workers s2 !! i = Some WSleep /\
       collectors s2 !! i = Some (CInc (g s)) /\
       step W (AWorker i) s2 = Some s3 /\ workers s3 !! i = Some WRecv /\
       log s3 = EvSleep i :: EvForward i (g s) :: EvHandoff i (g s) :: log s).
Proof.
  intros [C V L]%reachable_inv Hw.
  split; [by apply (li_worker _ L)|].
  split; [by apply (li_sleep _ L)|].
  split.
  { destruct (lookup_lt_is_Some_2 (outs_closed s) i) as [b Hb].
    { rewrite (ci_outs_len _ _ C), <- (ci_workers_len _ _ C). by eapply lookup_lt_Some. }
    exists b. split; [done|]. split; [by apply (li_worker_close _ L)|].
    split.
    - intros ->. apply (ci_outs _ _ C) in Hb. congruence.
    - intros ->. apply (ci_outs _ _ C) in Hw. congruence. }
  split; [by apply (ci_worker_exit _ _ C i)|].
  split.
  { intros He -> Hc. unfold step, Worker_step. by rewrite He, Hw, Hc. }
  split.
  { intros He -> Hc. apply Worker_stops; try done.
    by eapply outs_open. }
  intros He -> Hg Hco. apply Worker_forwards; try done.
  - destruct (chIn_closed s) eqn:Hc; [|done].
    apply (ci_chIn _ _ C) in Hc. congruence.
  - by eapply outs_open.
Qed.

Lemma Worker_loop_witness :
  exists s, exec NumOut demo_worker_recv (init NumOut false) = Some s /\
    worker_in 0 (log s) = [1] /\ worker_out 0 (log s) = [1] /\
    occurrences (EvSleep 0) (log s) = 1%nat /\
    exists s1 s2 s3,
      step NumOut (AHandoff 0) s = Some s1 /\ workers s1 !! 0%nat = Some (WSend (g s)) /\
      step NumOut (AForward 0) s1 = Some s2 /\ workers s2 !! 0%nat = Some WSleep /\
      collectors s2 !! 0%nat = Some (CInc (g s)) /\
      step NumOut (AWorker 0) s2 = Some s3 /\ workers s3 !! 0%nat = Some WRecv /\
      log s3 = EvSleep 0 :: EvForward 0 (g s) :: EvHandoff 0 (g s) :: log s.
Proof.
  eexists. split; [vm_compute; reflexivity|].
  do 3 (split; [reflexivity|]).
  match goal with
  | |- context [log ?s] =>
      assert (Hr : reachable NumOut false s)
        by (exists demo_worker_recv; vm_compute; reflexivity);
      destruct (Worker_loop NumOut false s 0 WRecv Hr eq_refl)
        as (_ & _ & _ & _ & _ & _ & H)
  end.
  exact (H eq_refl eq_refl eq_refl eq_refl).
Defined.

(** C9. Each worker is first in, first out: in the order of the run, the
    values worker [i] has sent on [outs[i]] are the values it has received
    from [chIn], in the same order, followed by the value it holds if it is
    blocked in its send. *)
Theorem Worker_fifo (W : nat) (expired : bool) (s : state) (i : nat) (w : wpc) :
  reachable W expired s -> workers s !! i = Some w ->
  rev (worker_in i (log s)) = rev (worker_out i (log s)) ++ wheld w /\
  ((forall v, w <> WSend v) ->
     rev (worker_out i (log s)) = rev (worker_in i (log s))).
Proof.
  intros [C V L]%reachable_inv Hw.
  pose proof (li_worker _ L _ _ Hw) as H.
  split.
  - rewrite H, rev_app_distr. by destruct w.
  - intros Hne. rewrite H. destruct w; simpl; try done. by destruct (Hne v).
Qed.

Lemma Worker_fifo_witness :
  exists s, exec NumOut demo_fifo (init NumOut false) = Some s /\
    workers s !! 7%nat = Some (WSend 4) /\
    rev (worker_out 7 (log s)) = [2; 3] /\
    rev (worker_in 7 (log s)) = rev (worker_out 7 (log s)) ++ [4].
Proof.
  eexists. split; [vm_compute; reflexivity|].
  split; [reflexivity|]. split; [reflexivity|].
  match goal with
  | |- context [log ?s] =>
      assert (Hr : reachable NumOut false s)
        by (exists demo_fifo; vm_compute; reflexivity);
      destruct (Worker_fifo NumOut false s 7 (WSend 4) Hr eq_refl) as [H _]
  end.
  exact H.
Defined.

(** ** One collector, and the close of [chOut] after the join *)

Lemma amounts_written_by W a s s' i :
  step W a s = Some s' -> amounts s' !! i <> amounts s !! i ->
  a = ACollector i /\ exists v, collectors s !! i = Some (CInc v).
Proof.
  intros H Hne. destruct s as [cd gp gv ci isum icnt ws oc cs am co coc wgc kp mp cn sm ec lg].
  step_inv H; simpl in *; try done.
  match goal with
  | _ : cs !! ?j = Some (CInc _) |- _ => destruct (decide (j = i)) as [->|]
  end.
  - eauto.
  - by rewrite list_lookup_insert_ne in Hne.
Qed.

(** A collector has counted no more values than [Generator] has sent. *)
Lemma incs_le_sent W s i c :
  inv W s -> collectors s !! i = Some c ->
  (occurrences (EvInc i) (log s) <= length (sent (log s)))%nat.
Proof.
  intros [C V L] Hc.
  destruct (lookup_lt_is_Some_2 (workers s) i) as [w Hw].
  { rewrite (ci_workers_len _ _ C), <- (ci_collectors_len _ _ C).
    by eapply lookup_lt_Some. }
  pose proof (li_worker _ L _ _ Hw) as H1.
  pose proof (li_collector _ L _ _ Hc) as H2.
  pose proof (li_incs _ L _ _ Hc) as H3.
  pose proof (worker_in_length i (log s)) as H4.
  rewrite H1, H2, !length_app in H4.
  assert (cpastn c <= length (cheld c))%nat by (destruct c; simpl; lia).
  lia.
Qed.

(** C6. At every point of a run the slot [amounts[i]] holds the number of
    times collector [i] has executed [amounts[i]++], as an [int64], hence
    that number itself as long as it fits in an [int64] (it never exceeds
    the number of values [Generator] has sent); the collector has done so
    once for each value it has sent into [chOut], and once more if it is
    about to send; no step of any other goroutine changes the slot; the
    values the collector has sent into [chOut] are the values it has
    received from [outs[i]], unchanged and in the same order, but for the
    one it may hold.  Whenever the collector holds no value (at the head of
    its loop, and once [outs[i]] is closed and drained) it has sent all that
    it has received and the slot is the number of values received. *)
Theorem collector_accounting
    (W : nat) (expired : bool) (s : state) (i : nat) (c : cpc) (a : Z) :
  reachable W expired s -> collectors s !! i = Some c -> amounts s !! i = Some a ->
  a = wrap64 (Z.of_nat (occurrences (EvInc i) (log s))) /\
  (occurrences (EvInc i) (log s) <= length (sent (log s)))%nat /\
  (Z.of_nat (occurrences (EvInc i) (log s)) <= max_int64 ->
     a = Z.of_nat (occurrences (EvInc i) (log s))) /\
  occurrences (EvInc i) (log s) = (length (collector_out i (log s)) + cpastn c)%nat /\
  worker_out i (log s) = cheld c ++ collector_out i (log s) /\
  (cheld c = [] ->
     collector_out i (log s) = worker_out i (log s) /\
     a = wrap64 (Z.of_nat (length (worker_out i (log s))))) /\
  (c = CExit \/ c = CDone -> outs_closed s !! i = Some true /\ cheld c = []) /\
  (forall act s', step W act s = Some s' -> amounts s' !! i <> amounts s !! i ->
     act = ACollector i /\ exists v, c = CInc v).
Proof.
  intros Hr Hc Ha. pose proof (reachable_inv _ _ _ Hr) as I.
  destruct I as [C V L].
  pose proof (li_amount _ L _ _ Ha) as H1.
  pose proof (li_incs _ L _ _ Hc) as H2.
  pose proof (li_collector _ L _ _ Hc) as H3.
  split; [done|].
  split; [by eapply incs_le_sent|].
  split.
  { intros Hle. rewrite H1. apply wrap64_id. unfold in_int64, min_int64. lia. }
  split; [done|]. split; [done|]. split; [|split].
  - intros E1.
    assert (E2 : cpastn c = 0%nat) by (by destruct c).
    rewrite E1 in H3. simpl in H3. split; [done|].
    rewrite H1, H2, E2, H3. f_equal. lia.
  - intros Hd. split; [by eapply (ci_collector_exit _ _ C)|].
    by destruct Hd as [-> | ->].
  - intros act s' Hs Hne.
    destruct (amounts_written_by _ _ _ _ _ Hs Hne) as (-> & v & Hv).
    split; [done|]. exists v. congruence.
Qed.

Lemma collector_accounting_witness :
  exists s, exec NumOut demo_counted (init NumOut false) = Some s /\
    collectors s !! 7%nat = Some (CSend 3) /\ amounts s !! 7%nat = Some 2 /\
    2 = wrap64 (Z.of_nat (occurrences (EvInc 7) (log s))) /\
    occurrences (EvInc 7) (log s) = (length (collector_out 7 (log s)) + 1)%nat /\
    worker_out 7 (log s) = [3] ++ collector_out 7 (log s).
Proof.
  eexists. split; [vm_compute; reflexivity|].
  split; [reflexivity|]. split; [reflexivity|].
  match goal with
  | |- context [log ?s] =>
      assert (Hr : reachable NumOut false s)
        by (exists demo_counted; vm_compute; reflexivity);
      destruct (collector_accounting NumOut false s 7 (CSend 3) 2 Hr eq_refl eq_refl)
        as (H1 & _ & _ & H2 & H3 & _)
  end.
  split; [exact H1|]. split; [exact H2|exact H3].
Defined.

Lemma occurrences_In (e : event) (l : list event) :
  (0 < occurrences e l)%nat <-> In e l.
Proof.
  induction l as [|x l IH]; simpl; [split; [lia|done]|].
  case_decide.
  - split; [auto|lia].
  - rewrite IH. split; [auto|]. intros [?|?]; [congruence|done].
Qed.

Lemma close_ordered_nil W : close_ordered W [].
Proof. intros [|??] ? ?; done. Qed.

Lemma close_ordered_other W e l :
  close_ordered W l -> e <> EvCloseOut ->
  (In EvCloseOut l -> forall i v, e <> EvMerge i v) ->
  close_ordered W (e :: l).
Proof.
  intros Ho Hne Hm [|e1 l1] l2 Heq; simplify_eq/=.
  destruct (Ho _ _ eq_refl) as (A & B & D).
  split; [done|]. split; [done|].
  intros i v [->|Hin]; [|by eapply D].
  eapply Hm; [|done]. apply in_elt.
Qed.

Lemma close_ordered_close W l :
  ~ In EvCloseOut l -> In EvWaited l ->
  (forall i, (i < W)%nat -> In (EvWgDone i) l) ->
  close_ordered W (EvCloseOut :: l).
Proof.
  intros Hn Hw Hd [|e1 l1] l2 Heq; simplify_eq/=.
  - split; [done|]. split; [done|]. by intros i v [].
  - destruct Hn. apply in_elt.
Qed.

Lemma step_close_ordered W a s s' :
  inv W s -> step W a s = Some s' ->
  close_ordered W (log s) -> close_ordered W (log s').
Proof.
  intros [C V L] H Ho.
  assert (Hclosed : In EvCloseOut (log s) -> chOut_closed s = true).
  { intros Hin%occurrences_In. rewrite (li_close_out _ L) in Hin.
    destruct (chOut_closed s); [done | simpl in Hin; lia]. }
  assert (Hdone : chOut_closed s = true ->
                  forall i c, collectors s !! i = Some c -> c = CDone).
  { intros Hc i c Hi. apply (ci_chOut _ _ C) in Hc.
    eapply (ci_closer _ _ C); eauto. }
  pose proof (li_waited _ L) as Hw.
  pose proof (li_wg_done _ L) as Hwg.
  pose proof (ci_closer _ _ C) as Hcl.
  pose proof (ci_collectors_len _ _ C) as Hlen.
  destruct s as [cd gp gv ci isum icnt ws oc cs am co coc wgc kp mp cn sm ec lg].
  step_inv H; simpl in *; try done.
  all: repeat (apply close_ordered_other; [|done|try done]); try done.
  - (* a send into [chOut] *)
    intros Hin i' v' Heq. simplify_eq.
    match goal with
    | Hc : cs !! _ = Some (CSend _) |- _ =>
        by specialize (Hdone (Hclosed Hin) _ _ Hc)
    end.
  - (* the close itself *)
    apply close_ordered_close.
    + intros Hin. by specialize (Hclosed Hin).
    + apply occurrences_In. rewrite Hw. simpl. lia.
    + intros i Hi. apply occurrences_In.
      destruct (lookup_lt_is_Some_2 cs i) as [c Hc]; [lia|].
      rewrite (Hwg _ _ Hc), (Hcl _ _ Hc (or_introl eq_refl)). simpl. lia.
Qed.

Lemma exec_close_ordered W sched : forall s s',
  inv W s -> close_ordered W (log s) -> exec W sched s = Some s' ->
  close_ordered W (log s').
Proof.
  induction sched as [|a sched IH]; intros s s' I Ho H; simpl in H.
  - by simplify_eq.
  - destruct (step W a s) as [s1|] eqn:Hs; [|done].
    eapply (IH s1); [by eapply step_inv_all| |done].
    by eapply step_close_ordered.
Qed.

Lemma chOut_closed_by W a s s' :
  step W a s = Some s' -> chOut_closed s' <> chOut_closed s ->
  a = ACloser /\ closer s = KClose /\ closer s' = KDone /\
  log s' = EvCloseOut :: log s.
Proof.
  intros H Hne. destruct s as [cd gp gv ci isum icnt ws oc cs am co coc wgc kp mp cn sm ec lg].
  step_inv H; simpl in *; done.
Qed.

Lemma KClose_entered W a s s' :
  step W a s = Some s' -> closer s' = KClose -> closer s <> KClose ->
  a = ACloser /\ closer s = KWait /\ wg s = 0 /\ log s' = EvWaited :: log s.
Proof.
  intros H H1 H2. destruct s as [cd gp gv ci isum icnt ws oc cs am co coc wgc kp mp cn sm ec lg].
  step_inv H; simpl in *; bool_hyps; done.
Qed.

(** C7. [chOut] is closed at most once, by the closing goroutine, after its
    [wg.Wait()] has returned, which happens only when the counter of the
    wait group is zero: every collector has then called [wg.Done()] and is
    finished.  In the log of every run the close comes after the return of
    [wg.Wait()] and after the [wg.Done()] of every collector, and no send
    into [chOut] comes after the close; no collector is at its send while
    [chOut] is closed, and no run panics. *)
Theorem chOut_closed_after_join (W : nat) (expired : bool) (s : state) :
  reachable W expired s ->
  exit_code s <> Some 2 /\
  occurrences EvCloseOut (log s) = once (chOut_closed s) /\
  (occurrences EvCloseOut (log s) <= 1)%nat /\
  close_ordered W (log s) /\
  wg s = sumf active (collectors s) + pending_add (main s) /\
  (chOut_closed s = true ->
     forall i c, collectors s !! i = Some c ->
       c = CDone /\ occurrences (EvWgDone i) (log s) = 1%nat) /\
  (forall i v, collectors s !! i = Some (CSend v) -> chOut_closed s = false) /\
  (forall a s', step W a s = Some s' -> chOut_closed s' <> chOut_closed s ->
     a = ACloser /\ closer s = KClose /\ closer s' = KDone /\
     log s' = EvCloseOut :: log s) /\
  (forall a s', step W a s = Some s' -> closer s' = KClose -> closer s <> KClose ->
     a = ACloser /\ closer s = KWait /\ wg s = 0 /\ log s' = EvWaited :: log s).
Proof.
  intros Hr. pose proof (reachable_inv _ _ _ Hr) as [C V L].
  assert (Hdone : chOut_closed s = true ->
                  forall i c, collectors s !! i = Some c -> c = CDone).
  { intros Hc i c Hi. apply (ci_chOut _ _ C) in Hc.
    eapply (ci_closer _ _ C); eauto. }
  split; [apply (ci_no_panic _ _ C)|].
  split; [apply (li_close_out _ L)|].
  split; [rewrite (li_close_out _ L); destruct (chOut_closed s); simpl; lia|].
  split.
  { destruct Hr as [sched Hr]. eapply exec_close_ordered; [apply init_inv| |exact Hr].
    apply close_ordered_nil. }
  split; [apply (ci_wg _ _ C)|].
  split.
  { intros Hc i c Hi. pose proof (Hdone Hc _ _ Hi) as ->. split; [done|].
    by rewrite (li_wg_done _ L _ _ Hi). }
  split.
  { intros i v Hi. destruct (chOut_closed s) eqn:Hc; [|done].
    by specialize (Hdone eq_refl _ _ Hi). }
  split.
  - intros a s' Hs Hne. by eapply chOut_closed_by.
  - intros a s' Hs H1 H2. by eapply KClose_entered.
Qed.

Lemma chOut_closed_after_join_witness :
  exists s, exec NumOut demo_closed (init NumOut false) = Some s /\
    chOut_closed s = true /\
    occurrences EvCloseOut (log s) = 1%nat /\
    close_ordered NumOut (log s) /\
    exit_code s <> Some 2.
Proof.
  eexists. split; [vm_compute; reflexivity|].
  split; [reflexivity|]. split; [reflexivity|].
  match goal with
  | |- context [log ?s] =>
      assert (Hr : reachable NumOut false s)
        by (exists demo_closed; vm_compute; reflexivity);
      destruct (chOut_closed_after_join NumOut false s Hr) as (H1 & _ & _ & H2 & _)
  end.
  split; [exact H2|exact H1].
Defined.

(** ** Lines 132-149 executed *)

Lemma subtract_all_wrap (l : list Z) (x : Z) :
  in_int64 x -> subtract_all l x = wrap64 (x - sumf id l).
Proof.
  unfold subtract_all. intros Hx. rewrite <- (wrap64_id x Hx) at 1. clear Hx.
  revert x. induction l as [|v l IH]; intros x; simpl.
  - f_equal. lia.
  - rewrite wrap64_sub_l, IH. f_equal. unfold id. lia.
Qed.

Lemma subtract_all_zero (l : list Z) (x : Z) :
  in_int64 x -> subtract_all l x = 0 <-> sum64 l = x.
Proof.
  intros Hx. rewrite (subtract_all_wrap _ _ Hx), sum64_sumf.
  by apply wrap64_zero_iff.
Qed.

Lemma run_main_exited W fuel s : exit_code s <> None -> run_main W fuel s = s.
Proof.
  intros He. destruct fuel; simpl; [done|].
  unfold step. by destruct (exit_code s).
Qed.

Lemma run_main_S W fuel s s' :
  step W AMain s = Some s' -> run_main W (S fuel) s = run_main W fuel s'.
Proof. intros H. simpl. by rewrite H. Qed.

(** The loop of lines 143-145, from position [k] on. *)
Lemma partition_loop W fuel : forall n k s,
  main s = MPartition k -> exit_code s = None ->
  length (amounts s) = (k + n)%nat ->
  run_main W (S n + fuel) s =
  run_main W fuel
    (set_main MCheckPartition
       (set_inputCount (subtract_all (drop k (amounts s)) (inputCount s)) s)).
Proof.
  induction n as [|n IH]; intros k s Hm He Hl.
  - assert (Hk : amounts s !! k = None) by (apply lookup_ge_None; lia).
    rewrite drop_ge by lia. simpl plus.
    rewrite (run_main_S _ _ _ (set_main MCheckPartition s)).
    + by destruct s.
    + unfold step, main_step. by rewrite He, Hm, Hk.
  - destruct (lookup_lt_is_Some_2 (amounts s) k) as [v Hv]; [lia|].
    change (S (S n) + fuel)%nat with (S (S n + fuel)).
    rewrite (run_main_S _ _ _
      (set_main (MPartition (S k)) (set_inputCount (wrap64 (inputCount s - v)) s))).
    + rewrite (IH (S k)); [|by destruct s|by destruct s|destruct s; simpl in *; lia].
      rewrite (drop_S _ _ _ Hv). by destruct s.
    + unfold step, main_step. by rewrite He, Hm, Hv.
Qed.

Lemma partition_loop_fields W fuel cd gp gv ci isum icnt ws oc cs am co coc wgc kp cn sm lg :
  run_main W (S (length am) + fuel)
    (mkState cd gp gv ci isum icnt ws oc cs am co coc wgc kp (MPartition 0) cn sm None lg) =
  run_main W fuel
    (mkState cd gp gv ci isum (subtract_all am icnt) ws oc cs am co coc wgc kp
       MCheckPartition cn sm None lg).
Proof. rewrite (partition_loop W fuel (length am) 0) by done. by rewrite drop_0. Qed.

(** One statement of [main], on a state written out field by field. *)
Ltac main_step :=
  erewrite run_main_S by
    (unfold step, main_step, emit, fatal; simpl;
     repeat match goal with H : (_ =? _) = _ |- _ => rewrite H end;
     unfold set_main, set_log, set_exit_code, set_ctx_done, set_inputCount;
     simpl; reflexivity).

(** What lines 132-149 do, whatever the variables hold. *)
Lemma main_tail W s :
  main s = MPrintCounts -> exit_code s = None ->
  let s' := run_main W (length (amounts s) + 8) s in
  match verdict s with
  | Some c =>
      exit_code s' = Some 1 /\
      log s' = EvFatal c :: EvCheck c false :: passed_before c ++ report s ++ log s /\
      inputCount s' =
        match c with
        | ChkPartition => subtract_all (amounts s) (inputCount s)
        | _ => inputCount s
        end
  | None =>
      exit_code s' = Some 0 /\
      log s' = EvExit :: EvCheck ChkPartition true :: EvCheck ChkCount true
                 :: EvCheck ChkSum true :: report s ++ log s /\
      inputCount s' = subtract_all (amounts s) (inputCount s)
  end.
Proof.
  intros Hm He.
  destruct s as [cd gp gv ci isum icnt ws oc cs am co coc wgc kp mp cn sm ec lg].
  simpl in *; subst.
  unfold verdict, report; simpl.
  replace (length am + 8)%nat with (S (S (S (S (length am + 4))))) by lia.
  do 3 main_step.
  destruct (isum =? sm) eqn:HS.
  2: { main_step. rewrite run_main_exited by done. done. }
  main_step.
  replace (length am + 4)%nat with (S (S (length am) + 2)) by lia.
  destruct (icnt =? cn) eqn:HC.
  2: { main_step. rewrite run_main_exited by done. done. }
  main_step.
  rewrite partition_loop_fields.
  destruct (subtract_all am icnt =? 0) eqn:HP.
  2: { main_step. rewrite run_main_exited by done. done. }
  do 2 main_step. done.
Qed.

(** ** The checks *)

Lemma verdict_None (s : state) :
  in_int64 (inputCount s) ->
  verdict s = None <->
  inputSum s = sum s /\ inputCount s = count s /\ sum64 (amounts s) = inputCount s.
Proof.
  intros Hr. unfold verdict.
  pose proof (subtract_all_zero (amounts s) (inputCount s) Hr) as Hz.
  destruct (inputSum s =? sum s) eqn:H1; bool_hyps; [|split; [done|tauto]].
  destruct (inputCount s =? count s) eqn:H2; bool_hyps; [|split; [done|tauto]].
  destruct (subtract_all (amounts s) (inputCount s) =? 0) eqn:H3; bool_hyps.
  - split; [|done]. intros _. tauto.
  - split; [done|]. tauto.
Qed.

Lemma checks_at_drained m : checks_at m <> [] -> drained m = true.
Proof. by destruct m. Qed.

Lemma checks_at_NoDup m : NoDup (map fst (checks_at m)).
Proof.
  destruct m; apply (bool_decide_unpack _); by compute.
Qed.

(** C8. From the end of the receive loop on, [main] prints the three lines
    of the report and evaluates the three conditions; if one fails the
    process ends with status 1 after a [log.Fatalf] that names it, and if
    all hold the process ends with status 0.  With [inputCount] an [int64],
    all three hold exactly when [inputSum == sum], [inputCount == count] and
    the slots of [amounts] add up to [inputCount].  In every run each
    condition is evaluated at most once, only after [main] has left its
    receive loop, when [chOut] is closed and empty and everything sent into
    it has been read; no run ends in the failure of a condition, and a run
    that ends has evaluated the three of them. *)
Theorem consistency_checks (W : nat) :
  (forall s, main s = MPrintCounts -> exit_code s = None ->
     let s' := run_main W (length (amounts s) + 8) s in
     (in_int64 (inputCount s) ->
        verdict s = None <->
        inputSum s = sum s /\ inputCount s = count s /\
        sum64 (amounts s) = inputCount s) /\
     match verdict s with
     | Some c =>
         exit_code s' = Some 1 /\
         log s' = EvFatal c :: EvCheck c false :: passed_before c ++ report s ++ log s
     | None =>
         exit_code s' = Some 0 /\
         log s' = EvExit :: EvCheck ChkPartition true :: EvCheck ChkCount true
                    :: EvCheck ChkSum true :: report s ++ log s
     end) /\
  (forall expired s, reachable W expired s ->
     checks (log s) = checks_at (main s) /\
     NoDup (map fst (checks (log s))) /\
     (checks (log s) <> [] -> drained (main s) = true) /\
     (drained (main s) = true ->
        chOut_closed s = true /\ chOut s = [] /\
        read_values (log s) = merged (log s)) /\
     (exit_code s = None \/ exit_code s = Some 0) /\
     (exit_code s = Some 0 ->
        checks (log s) = [(ChkPartition, true); (ChkCount, true); (ChkSum, true)]) /\
     (main s = MPrintCounts -> verdict s = None)).
Proof.
  split.
  - intros s Hm He. split; [apply verdict_None|].
    pose proof (main_tail W s Hm He) as H. simpl in H.
    destruct (verdict s); tauto.
  - intros expired s Hr. pose proof (reachable_inv _ _ _ Hr) as [C V L].
    pose proof (vi_checks _ _ V) as Hc.
    split; [done|].
    split; [rewrite Hc; apply checks_at_NoDup|].
    split; [rewrite Hc; apply checks_at_drained|].
    split.
    { intros Hd. destruct (ci_drained _ _ C Hd) as [H1 H2].
      split; [done|]. split; [done|].
      rewrite (vi_merged _ _ V), H2. done. }
    split.
    { destruct (vi_exit _ _ V) as [?|[? _]]; auto. }
    split.
    { intros He. destruct (vi_exit _ _ V) as [?|[_ Hm]]; [congruence|].
      by rewrite Hc, Hm. }
    intros Hm.
    assert (Hd : drained (main s) = true) by (by rewrite Hm).
    destruct (drained_conservation W s C V Hd) as (_ & _ & _ & HS & HC & HA & HI).
    rewrite Hm in HI. simpl in HI. rewrite Z.sub_0_r, HC, wrap64_idem, <- HC in HI.
    apply verdict_None.
    + rewrite HI, HC. apply wrap64_range.
    + rewrite sum64_sumf. split; [done|]. split; [done|]. congruence.
Qed.

Lemma consistency_checks_witness :
  (let s' := run_main NumOut (length (amounts tampered_sum) + 8) tampered_sum in
   exit_code s' = Some 1 /\
   log s' = EvFatal ChkSum :: EvCheck ChkSum false
              :: passed_before ChkSum ++ report tampered_sum ++ log tampered_sum) /\
  (exists s, exec NumOut demo_drained (init NumOut false) = Some s /\
     (let s' := run_main NumOut (length (amounts s) + 8) s in
      exit_code s' = Some 0 /\
      log s' = EvExit :: EvCheck ChkPartition true :: EvCheck ChkCount true
                 :: EvCheck ChkSum true :: report s ++ log s) /\
     checks (log s) = checks_at (main s)).
Proof.
  destruct (consistency_checks NumOut) as [H1 H2]. split.
  - destruct (H1 tampered_sum eq_refl eq_refl) as [_ H].
    assert (Hv : verdict tampered_sum = Some ChkSum) by (vm_compute; reflexivity).
    rewrite Hv in H. exact H.
  - eexists. split; [vm_compute; reflexivity|].
    match goal with
    | |- context [report ?s] =>
        destruct (H1 s eq_refl eq_refl) as [_ H];
        assert (Hv : verdict s = None) by (vm_compute; reflexivity);
        assert (Hr : reachable NumOut false s)
          by (exists demo_drained; vm_compute; reflexivity);
        destruct (H2 false s Hr) as [Hc _]
    end.
    rewrite Hv in H. split; [exact H|exact Hc].
Defined.

Lemma checks_app (l1 l2 : list event) : checks (l1 ++ l2) = checks l1 ++ checks l2.
Proof.
  induction l1 as [|e l1 IH]; simpl; [done|].
  destruct e; simpl; rewrite ?IH; done.
Qed.

Lemma fatals_app (l1 l2 : list event) : fatals (l1 ++ l2) = fatals l1 ++ fatals l2.
Proof.
  induction l1 as [|e l1 IH]; simpl; [done|].
  destruct e; simpl; rewrite ?IH; done.
Qed.

(** C10. The conditions are evaluated in the order sum, count, partition,
    and none is evaluated after one has failed; the failure ends the
    process, so a run has at most one [log.Fatalf]; when the first two hold,
    the loop of lines 143-145 has replaced [inputCount] by what is left after
    subtracting every [amounts[i]] from it, and (with [inputCount] an
    [int64]) what is left is zero exactly when the slots of [amounts] add up
    to the former [inputCount]. *)
Theorem checks_in_order (W : nat) (s : state) :
  main s = MPrintCounts -> exit_code s = None ->
  let s' := run_main W (length (amounts s) + 8) s in
  rev (checks (log s')) = rev (checks (log s)) ++ evaluated (verdict s) /\
  fatals (log s') =
    match verdict s with Some c => [c] | None => [] end ++ fatals (log s) /\
  (verdict s <> None -> exit_code s' = Some 1 /\ forall a, step W a s' = None) /\
  (inputSum s = sum s -> inputCount s = count s ->
     inputCount s' = subtract_all (amounts s) (inputCount s) /\
     (verdict s = None <-> inputCount s' = 0)) /\
  (in_int64 (inputCount s) ->
     subtract_all (amounts s) (inputCount s) =
       wrap64 (inputCount s - sumf id (amounts s)) /\
     (subtract_all (amounts s) (inputCount s) = 0 <->
      sum64 (amounts s) = inputCount s)).
Proof.
  intros Hm He s'. pose proof (main_tail W s Hm He) as H. simpl in H. fold s' in H.
  assert (Hrep : checks (report s ++ log s) = checks (log s)) by done.
  assert (Hrep' : fatals (report s ++ log s) = fatals (log s)) by done.
  split; [|split; [|split; [|split]]].
  - destruct (verdict s) as [[]|]; destruct H as (_ & -> & _); simpl;
      rewrite ?Hrep; simpl; rewrite <- ?app_assoc; done.
  - destruct (verdict s) as [[]|]; destruct H as (_ & -> & _); simpl;
      rewrite ?Hrep'; done.
  - intros Hv. destruct (verdict s) as [c|]; [|done].
    destruct H as (Hx & _). split; [done|].
    intros a. unfold step. by rewrite Hx.
  - intros HS HC. unfold verdict in *.
    rewrite HS, HC, !Z.eqb_refl in *.
    destruct (subtract_all (amounts s) (count s) =? 0) eqn:HP; bool_hyps;
      destruct H as (_ & _ & ->); split; try done.
  - intros Hr. split; [by apply subtract_all_wrap|by apply subtract_all_zero].
Qed.

Lemma checks_in_order_witness :
  let s' :=
    run_main NumOut (length (amounts tampered_partition) + 8) tampered_partition in
  rev (checks (log s')) =
    rev (checks (log tampered_partition)) ++ evaluated (Some ChkPartition) /\
  fatals (log s') = [ChkPartition] ++ fatals (log tampered_partition) /\
  exit_code s' = Some 1 /\
  inputCount s' = 5 /\
  (forall a, step NumOut a s' = None).
Proof.
  destruct (checks_in_order NumOut tampered_partition eq_refl eq_refl)
    as (H1 & H2 & H3 & H4 & _).
  assert (Hv : verdict tampered_partition = Some ChkPartition)
    by (vm_compute; reflexivity).
  assert (Hs : subtract_all (amounts tampered_partition)
                 (inputCount tampered_partition) = 5)
    by (vm_compute; reflexivity).
  rewrite Hv in H1, H2, H3.
  split; [exact H1|]. split; [exact H2|].
  destruct (H3 ltac:(discriminate)) as [H5 H6].
  split; [exact H5|]. split; [|exact H6].
  destruct (H4 eq_refl eq_refl) as [H7 _]. rewrite H7. exact Hs.
Defined.

(** ** No deadlock *)

Lemma sumf_nonzero_member {A : Type} (f : A -> Z) (l : list A) :
  sumf f l <> 0 -> exists i x, l !! i = Some x /\ f x <> 0.
Proof.
  induction l as [|a l IH]; simpl; intros H; [done|].
  destruct (decide (f a = 0)) as [E|E].
  - destruct IH as (i & x & Hi & Hx); [lia|]. by exists (S i), x.
  - by exists 0%nat, a.
Qed.

Ltac runs a :=
  left; exists a; split; [done|]; split; [by intros ?|];
  unfold step, main_step, Generator_step, handoff_step, Worker_step, forward_step,
    collector_step, closer_step; simpl;
  repeat match goal with H : _ = _ |- _ => rewrite H end; simpl;
  repeat case_match; eauto.

(** In a state of a run in which the process has not exited, either some
    goroutine can work off what is in the pipeline, or the pipeline is
    empty and waits for [Generator], which is at its [select]. *)
Lemma moves_or_ready W s :
  ctl_inv W s -> exit_code s = None ->
  (exists a, moves_on W a s) \/ (exists i, ready_for i s).
Proof.
  intros I He. unfold moves_on, ready_for.
  destruct s as [cd gp gv ci isum icnt ws oc cs am co coc wgc kp mp cn sm ec lg].
  destruct I as [Lw Lo Lc La Hmb Hgi Hwi Hci Hki Hin Hwe Hout Hce Hwg Hcl Hco Hdr Hcap Hhk Hnp].
  simpl in *. subst ec.
  destruct mp; try (runs AMain; fail).
  (* [main] is at its receive *)
  destruct co as [|v rest]; [|runs AMain].
  destruct coc eqn:Ecoc; [runs AMain|].
  destruct kp eqn:Ekp.
  - destruct Hki as [Hk _]. discriminate (Hk eq_refl).
  - (* the closer waits *)
    destruct (decide (wgc = 0)) as [Ez|Ez].
    { left. exists ACloser. split; [done|]. split; [done|].
      unfold step, closer_step; simpl. rewrite Ez. simpl. eauto. }
    simpl in Hwg. rewrite Z.add_0_r in Hwg.
    destruct (sumf_nonzero_member active cs) as (i & c & Hc & Hact); [lia|].
    pose proof (lookup_lt_Some _ _ _ Hc) as Hi. rewrite Lc in Hi.
    destruct (lookup_lt_is_Some_2 ws i) as [w Hw]; [lia|].
    destruct (lookup_lt_is_Some_2 oc i) as [b Hb]; [lia|].
    destruct c; simpl in Hact; try done.
    + (* the collector waits for its worker *)
      destruct b; [runs (ACollector i)|].
      destruct w.
      * apply Hwi in Hw as [Hw _]. specialize (Hw eq_refl). simpl in Hw. lia.
      * (* the worker waits for [Generator] *)
        destruct ci eqn:Eci; [runs (AWorker i)|].
        destruct gp.
        -- destruct Hgi as [Hg _]. discriminate (Hg eq_refl).
        -- right. by exists i.
        -- runs (AHandoff i).
        -- runs AGen.
        -- runs AGen.
        -- runs AGen.
        -- destruct Hin as [_ Hg]. discriminate (Hg eq_refl).
      * runs (AForward i).
      * runs (AWorker i).
      * runs (AWorker i).
      * apply Hout in Hw. congruence.
    + runs (ACollector i).
    + left. exists (ACollector i). split; [done|]. split; [done|].
      unfold step, collector_step; simpl. rewrite Hc.
      destruct (0 <? W)%nat eqn:E; [eauto|]. apply Nat.ltb_ge in E. lia.
    + runs (ACollector i).
  - runs ACloser.
  - destruct Hco as [_ Hk]. discriminate (Hk eq_refl).
Qed.

(** In a state of a run in which the process has not exited, some goroutine
    is not blocked. *)
Lemma some_goroutine_runs W s :
  ctl_inv W s -> exit_code s = None ->
  exists a s', a <> ATimer /\ step W a s = Some s'.
Proof.
  intros I He.
  destruct (moves_or_ready W s I He) as [(a & Ha & _ & s' & Hs)|(i & Hg & _)].
  - by exists a, s'.
  - exists AGen. unfold step, Generator_step. rewrite He, Hg.
    destruct (ctx_done s); eexists; by split.
Qed.

(** ** The steps left once the context is done *)

Lemma step_budget_gen W a s s' :
  ctl_inv W s -> step W a s = Some s' ->
  ctx_done s = true \/ (a <> ATimer /\ (a = AGen -> gen s <> GSelect)) ->
  budget W s' = budget W s - 1.
Proof.
  intros I H Hq.
  destruct s as [cd gp gv ci isum icnt ws oc cs am co coc wgc kp mp cn sm ec lg].
  step_inv H.
  all: destruct I as [Lw Lo Lc La Hmb Hgi Hwi Hci Hki Hin Hwe Hout Hce Hwg Hcl Hco Hdr Hcap Hhk Hnp];
    simpl in *; bool_hyps; bounds.
  all: try (destruct Hq as [Hq|[Hq1 Hq2]];
            [discriminate Hq | first [by destruct Hq1 | by exfalso; apply Hq2]]).
  all: clear Hq.
  all: entries.
  all: unfold budget; simpl.
  all: rewrite ?length_app; simpl.
  all: try (erewrite !sumf_insert by eassumption); simpl.
  all: try lia.
  all: saturate.
  all: repeat match goal with
       | H : _ = _ <-> _ |- _ =>
           first [ rewrite (proj2 H) by (simpl; first [done | lia]) | clear H ]
       end.
  all: simpl; lia.
Qed.

Lemma step_ctx_done W a s s' :
  ctx_done s = true -> step W a s = Some s' -> ctx_done s' = true.
Proof.
  intros Hd H.
  destruct s as [cd gp gv ci isum icnt ws oc cs am co coc wgc kp mp cn sm ec lg].
  by step_inv H.
Qed.

Lemma step_budget W a s s' :
  ctl_inv W s -> ctx_done s = true -> step W a s = Some s' ->
  ctx_done s' = true /\ budget W s' = budget W s - 1.
Proof.
  intros I Hd H. split; [by eapply step_ctx_done|].
  eapply step_budget_gen; eauto.
Qed.

Lemma exec_budget W sched : forall s s',
  inv W s -> ctx_done s = true -> exec W sched s = Some s' ->
  ctx_done s' = true /\ budget W s' = budget W s - Z.of_nat (length sched).
Proof.
  induction sched as [|a sched IH]; intros s s' I Hd H; simpl in H.
  - simplify_eq. simpl. split; [done | lia].
  - destruct (step W a s) as [s1|] eqn:Hs; [|done].
    destruct (step_budget _ _ _ _ (inv_ctl _ _ I) Hd Hs) as [Hd1 Hb1].
    destruct (IH s1 s' (step_inv_all _ _ _ _ I Hs) Hd1 H) as [Hd' Hb'].
    split; [done|]. rewrite Hb', Hb1. simpl length. lia.
Qed.

Lemma budget_nonneg W s : ctl_inv W s -> 0 <= budget W s.
Proof.
  intros I. unfold budget.
  assert (0 <= alive (exit_code s)) by (destruct (exit_code s); simpl; lia).
  assert (0 <= grank (gen s)) by (destruct (gen s); simpl; lia).
  assert (0 <= krank (closer s)) by (destruct (closer s); simpl; lia).
  assert (0 <= sumf wrank (workers s)).
  { apply sumf_nonneg. intros w. destruct w; simpl; lia. }
  assert (0 <= sumf crank (collectors s)).
  { apply sumf_nonneg. intros c. destruct c; simpl; lia. }
  assert (0 <= mrank W (main s)).
  { pose proof (ci_main _ _ I) as Hm. destruct (main s); simpl in *; lia. }
  lia.
Qed.

(** ** Termination and cancellation *)

Lemma exec_preserves W (P : state -> Prop) :
  (forall a s s', P s -> step W a s = Some s' -> P s') ->
  forall sched s s', P s -> exec W sched s = Some s' -> P s'.
Proof.
  intros Hstep. induction sched as [|a sched IH]; intros s s' HP H; simpl in H.
  - by simplify_eq.
  - destruct (step W a s) as [s1|] eqn:Hs; [|done]. eauto.
Qed.

Lemma exit_status W s : val_inv W s -> exit_code s = None \/ exit_code s = Some 0.
Proof. intros V. destruct (vi_exit _ _ V) as [?|[? _]]; auto. Qed.

(** Once the context is done the process reaches its exit, whatever the
    scheduler does. *)
Lemma exits_eventually W (n : nat) : forall s,
  inv W s -> ctx_done s = true -> budget W s <= Z.of_nat n ->
  exists sched s', exec W sched s = Some s' /\ exit_code s' = Some 0.
Proof.
  induction n as [|n IH]; intros s I Hd Hb.
  - destruct (exit_status W s (inv_val _ _ I)) as [He|He].
    + destruct (some_goroutine_runs W s (inv_ctl _ _ I) He) as (a & s1 & _ & Hs).
      destruct (step_budget _ _ _ _ (inv_ctl _ _ I) Hd Hs) as [_ Hb1].
      pose proof (budget_nonneg W s1 (inv_ctl _ _ (step_inv_all _ _ _ _ I Hs))).
      lia.
    + by exists [], s.
  - destruct (exit_status W s (inv_val _ _ I)) as [He|He]; [|by exists [], s].
    destruct (some_goroutine_runs W s (inv_ctl _ _ I) He) as (a & s1 & _ & Hs).
    destruct (step_budget _ _ _ _ (inv_ctl _ _ I) Hd Hs) as [Hd1 Hb1].
    destruct (IH s1 (step_inv_all _ _ _ _ I Hs) Hd1) as (sched & s' & Hx & He'); [lia|].
    exists (a :: sched), s'. simpl. by rewrite Hs.
Qed.

Lemma budget_bound W s : ctl_inv W s -> budget W s <= 23 * Z.of_nat W + 27.
Proof.
  intros I. unfold budget.
  assert (alive (exit_code s) <= 1) by (destruct (exit_code s); simpl; lia).
  assert (grank (gen s) <= 12) by (destruct (gen s); simpl; lia).
  assert (krank (closer s) <= 2) by (destruct (closer s); simpl; lia).
  assert (sumf wrank (workers s) <= 9 * Z.of_nat W).
  { rewrite <- (ci_workers_len _ _ I).
    induction (workers s) as [|w l IH]; simpl length; simpl sumf; [lia|].
    destruct w; simpl; lia. }
  assert (sumf crank (collectors s) <= 7 * Z.of_nat W).
  { rewrite <- (ci_collectors_len _ _ I).
    induction (collectors s) as [|c l IH]; simpl length; simpl sumf; [lia|].
    destruct c; simpl; lia. }
  pose proof (ci_cap _ _ I).
  assert (mrank W (main s) <= 4 * Z.of_nat W + 12).
  { pose proof (ci_main _ _ I) as Hm. destruct (main s); simpl in *; lia. }
  lia.
Qed.


(** X1. The pipeline cannot deadlock: in every state of every run in which
    the process has not exited, some goroutine, and not only the timer of
    the context, can take a step.  Hence a state in which no goroutine can
    move is one in which [main] has returned, with status 0. *)
Theorem deadlock_free (W : nat) (expired : bool) (s : state) :
  reachable W expired s ->
  (exit_code s = None -> exists a s', a <> ATimer /\ step W a s = Some s') /\
  ((forall a, a <> ATimer -> step W a s = None) ->
     exit_code s = Some 0 /\ main s = MReturn).
Proof.
  intros I%reachable_inv. split.
  - intros He. by apply some_goroutine_runs; [apply I|].
  - intros Hn. destruct (vi_exit _ _ (inv_val _ _ I)) as [He|He]; [|done].
    destruct (some_goroutine_runs W s (inv_ctl _ _ I) He) as (a & s1 & Ha & Hs).
    rewrite (Hn a Ha) in Hs. done.
Qed.

Lemma deadlock_free_witness :
  exists s, exec NumOut demo_last_send (init NumOut false) = Some s /\
    exit_code s = None /\
    exists a s', a <> ATimer /\ step NumOut a s = Some s'.
Proof.
  eexists. split; [vm_compute; reflexivity|]. split; [reflexivity|].
  match goal with
  | |- exists a s', _ /\ step _ _ ?s = _ =>
      assert (Hr : reachable NumOut false s)
        by (exists demo_last_send; vm_compute; reflexivity);
      destruct (deadlock_free NumOut false s Hr) as [H _]
  end.
  exact (H eq_refl).
Defined.

(** X2. Once the context is done the process terminates, whatever the
    scheduler does: every step uses up one unit of [budget], which is never
    negative and at most 23 * W + 27 however many values were generated, so
    no run goes on for more than [budget], hence 23 * W + 27, steps; a run
    that cannot go on has returned from [main] with status 0; and such a
    run exists. *)
Theorem shutdown_terminates (W : nat) (expired : bool) (s : state) :
  reachable W expired s -> ctx_done s = true ->
  0 <= budget W s <= 23 * Z.of_nat W + 27 /\
  (forall sched s', exec W sched s = Some s' ->
     budget W s' = budget W s - Z.of_nat (length sched) /\
     Z.of_nat (length sched) <= budget W s /\
     Z.of_nat (length sched) <= 23 * Z.of_nat W + 27 /\
     ((forall a, step W a s' = None) -> exit_code s' = Some 0)) /\
  (exists sched s', exec W sched s = Some s' /\ exit_code s' = Some 0).
Proof.
  intros I%reachable_inv Hd. split; [|split].
  - split; [apply budget_nonneg | apply budget_bound]; apply I.
  - intros sched s' Hs.
    destruct (exec_budget W sched s s' I Hd Hs) as [_ Hb].
    pose proof (exec_inv W sched s s' I Hs) as I'.
    pose proof (budget_nonneg W s' (inv_ctl _ _ I')).
    pose proof (budget_bound W s (inv_ctl _ _ I)).
    split; [done|]. split; [lia|]. split; [lia|].
    intros Hn. destruct (exit_status W s' (inv_val _ _ I')) as [He|He]; [|done].
    destruct (some_goroutine_runs W s' (inv_ctl _ _ I') He) as (a & s1 & _ & Hs1).
    rewrite (Hn a) in Hs1. done.
  - apply (exits_eventually W (Z.to_nat (budget W s))); [done..|].
    pose proof (budget_nonneg W s (inv_ctl _ _ I)). lia.
Qed.

Lemma shutdown_terminates_witness :
  exists s, exec NumOut demo_cancelled (init NumOut false) = Some s /\
    budget NumOut s = 138 /\
    exists sched s', exec NumOut sched s = Some s' /\ exit_code s' = Some 0.
Proof.
  eexists. split; [vm_compute; reflexivity|]. split; [vm_compute; reflexivity|].
  match goal with
  | |- exists sched s', exec _ _ ?s = _ /\ _ =>
      assert (Hr : reachable NumOut false s)
        by (exists demo_cancelled; vm_compute; reflexivity);
      destruct (shutdown_terminates NumOut false s Hr eq_refl) as (_ & _ & H)
  end.
  exact H.
Defined.



(** ** The end of the pipeline and the values in flight *)

Lemma step_stopped W a s s' :
  stopped_by_ctx s -> step W a s = Some s' -> stopped_by_ctx s'.
Proof.
  unfold stopped_by_ctx. intros Hs H.
  destruct s as [cd gp gv ci isum icnt ws oc cs am co coc wgc kp mp cn sm ec lg].
  step_inv H; simpl in *; intros Hg; try done; try (apply Hs; exact Hg).
  all: first [ apply Hs; by auto | destruct Hg; congruence ].
Qed.

Lemma reachable_stopped W expired s : reachable W expired s -> stopped_by_ctx s.
Proof.
  intros [sched H].
  eapply (exec_preserves W stopped_by_ctx); [apply step_stopped| |exact H].
  by intros [?|?].
Qed.

Lemma flat_map_nil {A B : Type} (f : A -> list B) (l : list A) :
  (forall i x, l !! i = Some x -> f x = []) -> flat_map f l = [].
Proof.
  induction l as [|x l IH]; intros H; simpl; [done|].
  rewrite (H 0%nat x eq_refl), IH; [done|].
  intros i y Hy. apply (H (S i) y Hy).
Qed.

(** X4. No goroutine is left behind.  With at least one worker, once
    [main] has left its receive loop the context is done, [Generator],
    every worker, every collector and the closing goroutine have returned,
    [chIn], every [outs[i]] and [chOut] are closed, the counter of the
    [WaitGroup] is 0, no value is in flight, and [main] is the only
    goroutine that can still take a step: what it reads from then on
    ([inputSum], [inputCount], [amounts]) is written by nobody else. *)
Theorem clean_shutdown (W : nat) (expired : bool) (s : state) :
  reachable W expired s -> (0 < W)%nat -> drained (main s) = true ->
  ctx_done s = true /\ gen s = GDone /\ chIn_closed s = true /\
  (forall i, (i < W)%nat ->
     workers s !! i = Some WDone /\ outs_closed s !! i = Some true /\
     collectors s !! i = Some CDone) /\
  wg s = 0 /\ closer s = KDone /\ chOut_closed s = true /\ in_flight s = [] /\
  (forall a s', step W a s = Some s' -> a = AMain).
Proof.
  intros Hr HW Hd. pose proof (reachable_stopped _ _ _ Hr) as Hst.
  apply reachable_inv in Hr as [C V L].
  destruct (drained_quiet W s C Hd) as (HWD & HCD & Hch & _ & _).
  destruct (ci_drained _ _ C Hd) as [Hcl _].
  assert (Hlanes : forall i, (i < W)%nat ->
     workers s !! i = Some WDone /\ outs_closed s !! i = Some true /\
     collectors s !! i = Some CDone).
  { intros i Hi.
    destruct (lookup_lt_is_Some_2 (workers s) i) as [w Hw];
      [rewrite (ci_workers_len _ _ C); lia|].
    destruct (lookup_lt_is_Some_2 (collectors s) i) as [c Hc];
      [rewrite (ci_collectors_len _ _ C); lia|].
    rewrite (HWD _ _ Hw) in Hw. rewrite (HCD _ _ Hc) in Hc.
    split; [done|]. split; [by apply (ci_outs _ _ C)|done]. }
  destruct (Hlanes 0%nat HW) as (Hw0 & _ & _).
  assert (Hin : chIn_closed s = true).
  { eapply (ci_worker_exit _ _ C); [exact Hw0 | by right]. }
  assert (Hg : gen s = GDone) by (by apply (ci_chIn _ _ C)).
  assert (Hk : closer s = KDone) by (by apply (ci_chOut _ _ C)).
  assert (Hctx : ctx_done s = true) by (apply Hst; by right).
  assert (Hm : pending_add (main s) = 0) by (by destruct (main s)).
  split; [done|]. split; [done|]. split; [done|]. split; [done|].
  split.
  { rewrite (ci_wg _ _ C), Hm, (sumf_zero active); [done|].
    intros i c Hc. by rewrite (HCD _ _ Hc). }
  split; [done|]. split; [done|]. split.
  { unfold in_flight. rewrite Hch, !flat_map_nil; [done| |].
    - intros i c Hc. by rewrite (HCD _ _ Hc).
    - intros i w Hw. by rewrite (HWD _ _ Hw). }
  intros a s' Hs. unfold step in Hs.
  destruct (exit_code s); [done|].
  destruct a as [| | |i|i|i|i|]; try done.
  - by rewrite Hctx in Hs.
  - unfold Generator_step in Hs. by rewrite Hg in Hs.
  - unfold handoff_step in Hs. by rewrite Hg in Hs.
  - unfold Worker_step in Hs.
    destruct (workers s !! i) as [w|] eqn:Hw; [|done].
    by rewrite (HWD _ _ Hw) in Hs.
  - unfold forward_step in Hs.
    destruct (workers s !! i) as [w|] eqn:Hw; [|done].
    by rewrite (HWD _ _ Hw) in Hs.
  - unfold collector_step in Hs.
    destruct (collectors s !! i) as [c|] eqn:Hc; [|done].
    by rewrite (HCD _ _ Hc) in Hs.
  - unfold closer_step in Hs. by rewrite Hk in Hs.
Qed.

Lemma clean_shutdown_witness :
  exists s, exec NumOut demo_drained (init NumOut false) = Some s /\
    main s = MPrintCounts /\ gen s = GDone /\ wg s = 0 /\ in_flight s = [] /\
    (forall a s', step NumOut a s = Some s' -> a = AMain).
Proof.
  eexists. split; [vm_compute; reflexivity|]. split; [reflexivity|].
  match goal with
  | |- gen ?s = _ /\ _ =>
      assert (Hr : reachable NumOut false s)
        by (exists demo_drained; vm_compute; reflexivity);
      assert (HW : (0 < NumOut)%nat) by (unfold NumOut; lia);
      destruct (clean_shutdown NumOut false s Hr HW eq_refl)
        as (_ & H1 & _ & _ & H2 & _ & _ & H3 & H4)
  end.
  split; [exact H1|]. split; [exact H2|]. split; [exact H3|exact H4].
Defined.

Lemma sumf_wheld (f : Z -> Z) (ws : list wpc) :
  sumf f (flat_map wheld ws) = sumf (wload f) ws.
Proof.
  induction ws as [|w ws IH]; simpl; [done|].
  rewrite sumf_app, IH. destruct w; simpl; lia.
Qed.

Lemma sumf_cheld (f : Z -> Z) (cs : list cpc) :
  sumf f (flat_map cheld cs) = sumf (cload f) cs.
Proof.
  induction cs as [|c cs IH]; simpl; [done|].
  rewrite sumf_app, IH. destruct c; simpl; lia.
Qed.

Lemma sumf_in_flight (f : Z -> Z) (s : state) :
  sumf f (in_flight s) =
  sumf (wload f) (workers s) + sumf (cload f) (collectors s) + sumf f (chOut s).
Proof. unfold in_flight. rewrite !sumf_app, sumf_wheld, sumf_cheld. lia. Qed.

Lemma wheld_length (ws : list wpc) : (length (flat_map wheld ws) <= length ws)%nat.
Proof.
  induction ws as [|w ws IH]; simpl; [done|].
  rewrite length_app. destruct w; simpl; lia.
Qed.

Lemma cheld_length (cs : list cpc) : (length (flat_map cheld cs) <= length cs)%nat.
Proof.
  induction cs as [|c cs IH]; simpl; [done|].
  rewrite length_app. destruct c; simpl; lia.
Qed.

Lemma numbers_bounds (n : nat) (v : Z) :
  Z.of_nat n <= max_int64 -> In v (numbers n) -> 1 <= v <= Z.of_nat n.
Proof.
  induction n as [|n IH]; intros Hn; simpl; [done|].
  intros [<-|Hv].
  - rewrite wrap64_id; [lia|]. unfold in_int64, min_int64. lia.
  - specialize (IH ltac:(lia) Hv). lia.
Qed.

Lemma numbers_NoDup (n : nat) : Z.of_nat n <= max_int64 -> NoDup (numbers n).
Proof.
  induction n as [|n IH]; intros Hn; simpl numbers; constructor.
  - rewrite list_elem_of_In. intros Hv.
    rewrite wrap64_id in Hv by (unfold in_int64, min_int64; lia).
    apply numbers_bounds in Hv; lia.
  - apply IH. lia.
Qed.

(** X5. Nothing is lost and nothing is duplicated, at any moment of any
    run: the values that [Generator] has sent are, as a multiset, the values
    in flight together with the values that [main] has received; and as
    long as fewer than 2^63 values were sent they are pairwise distinct, so
    that every value sent is in exactly one place. *)
Theorem nothing_lost_in_flight (W : nat) (expired : bool) (s : state) :
  reachable W expired s ->
  Permutation (sent (log s)) (in_flight s ++ read_values (log s)) /\
  (Z.of_nat (length (sent (log s))) <= max_int64 ->
     NoDup (in_flight s ++ read_values (log s))).
Proof.
  intros [C V L]%reachable_inv.
  assert (HP : Permutation (sent (log s)) (in_flight s ++ read_values (log s))).
  { apply sumf_all_Permutation. intros f.
    rewrite sumf_app, sumf_in_flight. apply (vi_flow _ _ V). }
  split; [done|]. intros Hn.
  rewrite <- HP, (vi_sent _ _ V). by apply numbers_NoDup.
Qed.

Lemma nothing_lost_in_flight_witness :
  exists s, exec NumOut demo_counted (init NumOut false) = Some s /\
    in_flight s = [3] /\ rev (read_values (log s)) = [1; 2] /\
    rev (sent (log s)) = [1; 2; 3] /\
    Permutation (sent (log s)) (in_flight s ++ read_values (log s)) /\
    NoDup (in_flight s ++ read_values (log s)).
Proof.
  eexists. split; [vm_compute; reflexivity|].
  do 3 (split; [reflexivity|]).
  match goal with
  | |- Permutation (sent (log ?s)) _ /\ _ =>
      assert (Hr : reachable NumOut false s)
        by (exists demo_counted; vm_compute; reflexivity);
      destruct (nothing_lost_in_flight NumOut false s Hr) as [H1 H2]
  end.
  split; [exact H1|]. apply H2. vm_compute. discriminate.
Defined.

(** X6. Back-pressure: [Generator] is never more than 3 * W values ahead
    of [main].  The values sent and not yet received by [main] are the
    values in flight, of which every worker and every collector holds at
    most one and the buffer of [chOut] at most W. *)
Theorem backpressure (W : nat) (expired : bool) (s : state) :
  reachable W expired s ->
  length (sent (log s)) = (length (in_flight s) + length (read_values (log s)))%nat /\
  (length (flat_map wheld (workers s)) <= W)%nat /\
  (length (flat_map cheld (collectors s)) <= W)%nat /\
  (length (chOut s) <= W)%nat /\
  (length (sent (log s)) <= length (read_values (log s)) + 3 * W)%nat.
Proof.
  intros [C V L]%reachable_inv.
  assert (H1 : length (sent (log s)) =
               (length (in_flight s) + length (read_values (log s)))%nat).
  { apply Nat2Z.inj. rewrite Nat2Z.inj_add, <- !sumf_one, sumf_in_flight.
    apply (vi_flow _ _ V). }
  pose proof (wheld_length (workers s)) as H2. rewrite (ci_workers_len _ _ C) in H2.
  pose proof (cheld_length (collectors s)) as H3. rewrite (ci_collectors_len _ _ C) in H3.
  pose proof (ci_cap _ _ C) as H4.
  repeat split; try done.
  rewrite H1. unfold in_flight. rewrite !length_app. lia.
Qed.

Lemma backpressure_witness :
  exists s, exec NumOut demo_full (init NumOut false) = Some s /\
    length (read_values (log s)) = 0%nat /\
    length (sent (log s)) = (3 * NumOut)%nat /\
    (length (sent (log s)) <= length (read_values (log s)) + 3 * NumOut)%nat.
Proof.
  eexists. split; [vm_compute; reflexivity|].
  do 2 (split; [reflexivity|]).
  match goal with
  | |- (length (sent (log ?s)) <= _)%nat =>
      assert (Hr : reachable NumOut false s)
        by (exists demo_full; vm_compute; reflexivity);
      destruct (backpressure NumOut false s Hr) as (_ & _ & _ & _ & H)
  end.
  exact H.
Defined.

(** ** The tallies and the order of the values *)

Lemma triangle_S (n : nat) :
  triangle (Z.of_nat (S n)) = Z.of_nat (S n) + triangle (Z.of_nat n).
Proof.
  unfold triangle.
  replace (Z.of_nat (S n) * (Z.of_nat (S n) + 1))
    with (Z.of_nat n * (Z.of_nat n + 1) + Z.of_nat (S n) * 2) by lia.
  rewrite Z.div_add by lia. lia.
Qed.

Lemma sumf_numbers (n : nat) :
  wrap64 (sumf id (numbers n)) = wrap64 (triangle (Z.of_nat n)).
Proof.
  induction n as [|n IH]; [done|].
  rewrite triangle_S.
  change (sumf id (numbers (S n)))
    with (wrap64 (Z.of_nat (S n)) + sumf id (numbers n)).
  rewrite wrap64_add_l, <- wrap64_add_r, IH, wrap64_add_r. done.
Qed.

Lemma numbers_length (n : nat) : length (numbers n) = n.
Proof. induction n as [|n IH]; simpl; [done | by rewrite IH]. Qed.

Lemma numbers_suffix (l1 l2 : list Z) : forall n,
  numbers n = l1 ++ l2 -> l2 = numbers (length l2).
Proof.
  induction l1 as [|x l1 IH]; intros n H; simpl in H.
  - by rewrite <- H, numbers_length.
  - destruct n as [|n]; simplify_eq/=. by eapply IH.
Qed.

Lemma numbers_exact (n : nat) :
  Z.of_nat n <= max_int64 -> rev (numbers n) = map Z.of_nat (seq 1 n).
Proof.
  intros Hn. rewrite rev_numbers. apply map_ext_in. intros k Hk.
  apply in_seq in Hk. apply wrap64_id. unfold in_int64, min_int64. lia.
Qed.

Lemma sumf_rev {A : Type} (f : A -> Z) (l : list A) : sumf f (rev l) = sumf f l.
Proof. induction l as [|x l IH]; simpl; [done|]. rewrite sumf_app, IH. simpl. lia. Qed.

(** X7. The running tallies.  At every moment [inputSum] is the [int64]
    sum of the arguments of the calls of the hook, which is k (k + 1) / 2
    after k calls, and until [main] starts subtracting from it (line 144)
    [inputCount] is the number of calls that have returned; whenever
    [Generator] is not inside the hook these are the calls for all the
    values sent.  At the head of the loop of [main] (line 127) [count] is
    the number of values received and [sum] their [int64] sum in the order
    of arrival. *)
Theorem running_tallies (W : nat) (expired : bool) (s : state) :
  reachable W expired s ->
  inputSum s = wrap64 (triangle (Z.of_nat (length (hook_calls (log s))))) /\
  (pdone W (main s) = 0%nat ->
     inputCount s = wrap64 (Z.of_nat (length (hook_rets (log s)))) /\
     (Z.of_nat (length (sent (log s))) <= max_int64 ->
        inputCount s = Z.of_nat (length (hook_rets (log s))))) /\
  (gen s <> GHookSum -> gen s <> GHookCount ->
     length (hook_calls (log s)) = length (sent (log s)) /\
     length (hook_rets (log s)) = length (sent (log s))) /\
  (main s = MRecv ->
     count s = wrap64 (Z.of_nat (length (read_values (log s)))) /\
     sum s = sum64 (rev (read_values (log s)))).
Proof.
  intros [C V L]%reachable_inv.
  split; [|split; [|split]].
  - rewrite (vi_inputSum _ _ V), <- sumf_numbers. do 2 f_equal.
    eapply numbers_suffix. rewrite <- (vi_sent _ _ V). apply (vi_calls _ _ V).
  - intros Hp.
    assert (E : inputCount s = wrap64 (Z.of_nat (length (hook_rets (log s))))).
    { rewrite (vi_inputCount _ _ V), Hp. simpl. f_equal. lia. }
    split; [done|]. intros Hn. rewrite E. apply wrap64_id.
    pose proof (f_equal length (vi_rets _ _ V)) as Hl. rewrite length_app in Hl.
    unfold in_int64, min_int64. lia.
  - intros H1 H2. pose proof (vi_calls _ _ V) as E1. pose proof (vi_rets _ _ V) as E2.
    destruct (gen s); simpl in E1, E2; try done; by rewrite E1, E2 at 1.
  - intros Hm. rewrite (vi_count _ _ V), (vi_sum _ _ V), Hm. simpl.
    rewrite sum64_sumf, sumf_rev, !Z.sub_0_r. done.
Qed.

Lemma running_tallies_witness :
  exists s, exec NumOut demo_fifo (init NumOut false) = Some s /\
    gen s = GHookSum /\ inputSum s = 6 /\ inputCount s = 3 /\
    rev (sent (log s)) = [1; 2; 3; 4] /\
    inputSum s = wrap64 (triangle (Z.of_nat (length (hook_calls (log s))))) /\
    count s = wrap64 (Z.of_nat (length (read_values (log s)))).
Proof.
  eexists. split; [vm_compute; reflexivity|].
  do 4 (split; [reflexivity|]).
  match goal with
  | |- inputSum ?s = _ /\ _ =>
      assert (Hr : reachable NumOut false s)
        by (exists demo_fifo; vm_compute; reflexivity);
      destruct (running_tallies NumOut false s Hr) as (H1 & _ & _ & H2)
  end.
  split; [exact H1|]. exact (proj1 (H2 eq_refl)).
Defined.

(** X8. The totals of the report.  Once [main] has left its receive loop,
    with n the number of values [Generator] has sent: [count] is n and
    [sum] and [inputSum] are n (n + 1) / 2, as [int64]; when n fits in an
    [int64] the values that [main] has received are 1, ..., n in some
    order, each once, so that [sum] is determined by [count]; and when
    n (n + 1) / 2 fits as well nothing has wrapped around. *)
Theorem totals_closed_form (W : nat) (expired : bool) (s : state) :
  reachable W expired s -> drained (main s) = true ->
  count s = wrap64 (Z.of_nat (length (sent (log s)))) /\
  sum s = wrap64 (triangle (Z.of_nat (length (sent (log s))))) /\
  inputSum s = sum s /\
  (Z.of_nat (length (sent (log s))) <= max_int64 ->
     count s = Z.of_nat (length (sent (log s))) /\
     sum s = wrap64 (triangle (count s)) /\
     Permutation (read_values (log s))
       (map Z.of_nat (seq 1 (length (sent (log s))))) /\
     NoDup (read_values (log s)) /\
     (triangle (count s) <= max_int64 -> sum s = triangle (count s))).
Proof.
  intros [C V L]%reachable_inv Hd.
  destruct (drained_conservation W s C V Hd) as (Hcalls & _ & Hf & HS & HC & _ & _).
  assert (Hsum : sum s = wrap64 (triangle (Z.of_nat (length (sent (log s)))))).
  { rewrite <- HS, (vi_inputSum _ _ V), Hcalls, <- sumf_numbers.
    by rewrite <- (vi_sent _ _ V). }
  assert (HP : Permutation (read_values (log s)) (sent (log s))).
  { apply sumf_all_Permutation. intros f. by rewrite Hf. }
  split; [done|]. split; [done|]. split; [done|]. intros Hn.
  assert (Hc : count s = Z.of_nat (length (sent (log s)))).
  { rewrite HC. apply wrap64_id. unfold in_int64, min_int64. lia. }
  split; [done|]. split; [by rewrite Hc|]. split; [|split].
  - rewrite HP, <- (numbers_exact _ Hn), <- (vi_sent _ _ V).
    apply Permutation_rev.
  - rewrite HP, (vi_sent _ _ V). by apply numbers_NoDup.
  - intros Ht. rewrite Hsum, <- Hc. apply wrap64_id.
    unfold in_int64, min_int64. split; [|done].
    unfold triangle. rewrite Hc. apply Z.le_trans with 0; [lia|].
    apply Z.div_pos; lia.
Qed.

Lemma totals_closed_form_witness :
  exists s, exec NumOut demo_run (init NumOut false) = Some s /\
    exit_code s = Some 0 /\ count s = 3 /\ sum s = 6 /\ triangle 3 = 6 /\
    Permutation (read_values (log s)) [1; 2; 3].
Proof.
  eexists. split; [vm_compute; reflexivity|].
  do 4 (split; [reflexivity|]).
  match goal with
  | |- Permutation (read_values (log ?s)) _ =>
      assert (Hr : reachable NumOut false s)
        by (exists demo_run; vm_compute; reflexivity);
      destruct (totals_closed_form NumOut false s Hr eq_refl) as (_ & _ & _ & H)
  end.
  assert (Hn : 3 <= max_int64) by (vm_compute; discriminate).
  destruct (H Hn) as (_ & _ & HP & _). exact HP.
Defined.

Lemma worker_in_sublist (i : nat) (l : list event) : sublist (worker_in i l) (sent l).
Proof.
  induction l as [|e l IH]; simpl; [constructor|].
  destruct e; simpl; try done. case_decide; by constructor.
Qed.

Lemma collector_out_sublist (i : nat) (l : list event) :
  sublist (collector_out i l) (merged l).
Proof.
  induction l as [|e l IH]; simpl; [constructor|].
  destruct e; simpl; try done. case_decide; by constructor.
Qed.

(** X9. Every lane keeps the order of its values from end to end.  At
    every moment the values that worker [i] has received, a subsequence of
    the values sent, are the value it holds, then the value collector [i]
    holds, then the values collector [i] has sent into [chOut], which
    appear in this order among the values sent into [chOut]; and [chOut]
    is first-in first-out.  Hence, once [main] has left its receive loop,
    the values that worker [i] has received appear in the same order
    among the values that [main] has received. *)
Theorem lane_order
    (W : nat) (expired : bool) (s : state) (i : nat) (w : wpc) (c : cpc) :
  reachable W expired s -> workers s !! i = Some w -> collectors s !! i = Some c ->
  worker_in i (log s) = wheld w ++ cheld c ++ collector_out i (log s) /\
  sublist (worker_in i (log s)) (sent (log s)) /\
  sublist (collector_out i (log s)) (merged (log s)) /\
  merged (log s) = rev (chOut s) ++ read_values (log s) /\
  (drained (main s) = true ->
     sublist (worker_in i (log s)) (read_values (log s))).
Proof.
  intros [C V L]%reachable_inv Hw Hc.
  assert (E : worker_in i (log s) = wheld w ++ cheld c ++ collector_out i (log s)).
  { rewrite (li_worker _ L _ _ Hw). f_equal. apply (li_collector _ L _ _ Hc). }
  split; [done|]. split; [apply worker_in_sublist|].
  split; [apply collector_out_sublist|]. split; [apply (vi_merged _ _ V)|].
  intros Hd. destruct (drained_quiet W s C Hd) as (HWD & HCD & Hch & _ & _).
  rewrite E, (HWD _ _ Hw), (HCD _ _ Hc). simpl.
  pose proof (collector_out_sublist i (log s)) as Hs.
  by rewrite (vi_merged _ _ V), Hch in Hs.
Qed.

Lemma lane_order_witness :
  exists s, exec NumOut demo_run (init NumOut false) = Some s /\
    rev (worker_in 7 (log s)) = [2; 3] /\ rev (read_values (log s)) = [1; 2; 3] /\
    sublist (worker_in 7 (log s)) (read_values (log s)).
Proof.
  eexists. split; [vm_compute; reflexivity|].
  do 2 (split; [reflexivity|]).
  match goal with
  | |- sublist (worker_in _ (log ?s)) _ =>
      assert (Hr : reachable NumOut false s)
        by (exists demo_run; vm_compute; reflexivity);
      assert (Hw : workers s !! 7%nat = Some WDone) by reflexivity;
      assert (Hc : collectors s !! 7%nat = Some CDone) by reflexivity;
      destruct (lane_order NumOut false s 7 _ _ Hr Hw Hc) as (_ & _ & _ & _ & H)
  end.
  exact (H eq_refl).
Defined.

(** X10. Across lanes the order is not kept: the program as it is
    configured has a complete run, ending with status 0 and a consistent
    report, in which [Generator] sends 1 and then 2, and [main] receives 2
    and then 1. *)
Theorem order_not_preserved :
  exists sched s,
    exec NumOut sched (init NumOut false) = Some s /\
    exit_code s = Some 0 /\
    rev (sent (log s)) = [1; 2] /\
    rev (read_values (log s)) = [2; 1] /\
    rev (worker_in 0 (log s)) = [1] /\ rev (worker_in 1 (log s)) = [2] /\
    count s = 2 /\ sum s = 3.
Proof.
  exists demo_swap. eexists. split; [vm_compute; reflexivity|].
  repeat split; reflexivity.
Qed.

(** ** Before the deadline *)

Lemma step_sent W a s s' :
  step W a s = Some s' ->
  sent (log s') = sent (log s) \/ exists v, sent (log s') = v :: sent (log s).
Proof.
  intros H.
  destruct s as [cd gp gv ci isum icnt ws oc cs am co coc wgc kp mp cn sm ec lg].
  step_inv H; simpl; eauto.
Qed.

(** With at least one worker, [main] cannot leave its receive loop, and
    the process cannot exit, before the context is done. *)
Lemma running_before_deadline W expired s :
  reachable W expired s -> (0 < W)%nat -> ctx_done s = false ->
  drained (main s) = false /\ exit_code s = None.
Proof.
  intros Hr HW Hc. pose proof (reachable_stopped _ _ _ Hr) as Hst.
  apply reachable_inv in Hr as [C V L].
  assert (Hd : drained (main s) = false).
  { destruct (drained (main s)) eqn:Hd; [|done].
    destruct (drained_quiet W s C Hd) as (HWD & _).
    destruct (lookup_lt_is_Some_2 (workers s) 0) as [w Hw];
      [rewrite (ci_workers_len _ _ C); lia|].
    rewrite (HWD _ _ Hw) in Hw.
    assert (Hin : chIn_closed s = true).
    { eapply (ci_worker_exit _ _ C); [exact Hw | by right]. }
    apply (ci_chIn _ _ C) in Hin.
    rewrite Hst in Hc; [done | by right]. }
  split; [done|].
  destruct (vi_exit _ _ V) as [He|[_ Hm]]; [done|]. by rewrite Hm in Hd.
Qed.

Lemma step_before_return W a s s' :
  step W a s = Some s' -> a <> ATimer -> drained (main s) = false ->
  ctx_done s' = ctx_done s.
Proof.
  intros H Ha Hd.
  destruct s as [cd gp gv ci isum icnt ws oc cs am co coc wgc kp mp cn sm ec lg].
  by step_inv H.
Qed.

Lemma ready_sends W i s :
  exit_code s = None -> ctx_done s = false -> ready_for i s ->
  exists s', exec W [AGen; AHandoff i] s = Some s' /\
    ctx_done s' = false /\
    sent (log s') = wrap64 (g s + 1) :: sent (log s).
Proof.
  intros He Hc (Hg & Hw & Hin).
  destruct s as [cd gp gv ci isum icnt ws oc cs am co coc wgc kp mp cn sm ec lg].
  simpl in *. subst. eexists. split; [|split].
  - unfold exec, step, Generator_step, handoff_step. simpl. rewrite Hw. simpl. done.
  - done.
  - done.
Qed.

Lemma next_value W expired (n : nat) : forall s,
  reachable W expired s -> (0 < W)%nat -> ctx_done s = false ->
  budget W s <= Z.of_nat n ->
  exists sched s',
    ~ In ATimer sched /\ exec W sched s = Some s' /\ ctx_done s' = false /\
    length (sent (log s')) = S (length (sent (log s))).
Proof.
  induction n as [|n IH]; intros s Hr HW Hc Hb.
  all: destruct (running_before_deadline _ _ _ Hr HW Hc) as [Hd He].
  all: pose proof (reachable_inv _ _ _ Hr) as [C V L].
  all: destruct (moves_or_ready W s C He) as [(a & Ha1 & Ha2 & s1 & Hs)|(i & Hrdy)].
  all: try (destruct (ready_sends W i s He Hc Hrdy) as (s' & Hx & Hc' & Hsent);
            exists [AGen; AHandoff i], s'; split; [|split; [done|split; [done|]]];
            [ simpl; intros [?|[?|?]]; done | by rewrite Hsent ]).
  all: pose proof (step_budget_gen _ _ _ _ C Hs (or_intror (conj Ha1 Ha2))) as Hb1.
  all: assert (Hr1 : reachable W expired s1)
         by (apply (reachable_exec _ _ [a] _ _ Hr); simpl; by rewrite Hs).
  all: pose proof (budget_nonneg W s1 (inv_ctl _ _ (reachable_inv _ _ _ Hr1))) as Hn1.
  - lia.
  - assert (Hc1 : ctx_done s1 = false)
      by (by rewrite (step_before_return _ _ _ _ Hs Ha1 Hd)).
    destruct (step_sent _ _ _ _ Hs) as [E|[v E]].
    + destruct (IH s1 Hr1 HW Hc1) as (sched & s' & Hno & Hx & Hc' & Hl); [lia|].
      exists (a :: sched), s'. split; [|split; [|split; [done|]]].
      * intros [?|?]; [congruence | done].
      * simpl. by rewrite Hs.
      * by rewrite Hl, E.
    + exists [a], s1. split; [|split; [|split; [done|]]].
      * intros [?|?]; [congruence | done].
      * simpl. by rewrite Hs.
      * by rewrite E.
Qed.

(** X11. Before the deadline the pipeline does not stall.  With at least
    one worker, as long as the context is not done the process has not
    exited and [main] has not left its receive loop, and from whatever
    state the run is in there is a continuation, in which the deadline does
    not pass, that ends with [Generator] having sent one more value. *)
Theorem production_goes_on (W : nat) (expired : bool) (s : state) :
  reachable W expired s -> (0 < W)%nat -> ctx_done s = false ->
  exit_code s = None /\ drained (main s) = false /\
  exists sched s',
    ~ In ATimer sched /\ exec W sched s = Some s' /\ ctx_done s' = false /\
    length (sent (log s')) = S (length (sent (log s))).
Proof.
  intros Hr HW Hc.
  destruct (running_before_deadline _ _ _ Hr HW Hc) as [Hd He].
  split; [done|]. split; [done|].
  apply (next_value W expired (Z.to_nat (budget W s))); try done.
  pose proof (budget_nonneg W s (inv_ctl _ _ (reachable_inv _ _ _ Hr))). lia.
Qed.

Lemma production_goes_on_witness :
  exists s, exec NumOut demo_blocked (init NumOut false) = Some s /\
    gen s = GSend /\
    (forall i, (i < NumOut)%nat -> step NumOut (AHandoff i) s = None) /\
    exists sched s',
      ~ In ATimer sched /\ exec NumOut sched s = Some s' /\ ctx_done s' = false /\
      length (sent (log s')) = S (length (sent (log s))).
Proof.
  eexists. split; [vm_compute; reflexivity|]. split; [reflexivity|]. split.
  { intros i Hi. unfold NumOut in Hi.
    do 25 (destruct i as [|i]; [vm_compute; reflexivity|]). lia. }
  match goal with
  | |- exists sched s', _ /\ exec _ _ ?s = _ /\ _ =>
      assert (Hr : reachable NumOut false s)
        by (exists demo_blocked; vm_compute; reflexivity);
      assert (HW : (0 < NumOut)%nat) by (unfold NumOut; lia);
      destruct (production_goes_on NumOut false s Hr HW eq_refl) as (_ & _ & H)
  end.
  exact H.
Defined.

(** ** The breakdown by worker, and who writes the tallies *)

Lemma step_lanes W a s s' :
  ctl_inv W s /\ lanes_in_pool W (log s) -> step W a s = Some s' ->
  ctl_inv W s' /\ lanes_in_pool W (log s').
Proof.
  intros [C HL] H. split; [by eapply step_ctl|].
  pose proof (ci_workers_len _ _ C) as Lw. clear C. unfold lanes_in_pool in *.
  destruct s as [cd gp gv ci isum icnt ws oc cs am co coc wgc kp mp cn sm ec lg].
  step_inv H; simpl in *; try done.
  all: intros j u Hin.
  all: repeat match goal with
       | H : _ \/ _ |- _ =>
           destruct H as [H|H];
           [first [discriminate H | simplify_eq; bounds; lia]|]
       end.
  all: eauto.
Qed.

Lemma reachable_lanes W expired s : reachable W expired s -> lanes_in_pool W (log s).
Proof.
  intros [sched H].
  eapply (exec_preserves W (fun s => ctl_inv W s /\ lanes_in_pool W (log s)));
    [apply step_lanes| |exact H].
  split; [apply init_ctl|]. by intros i v [].
Qed.

Lemma flat_map_skip (j : nat) (v : Z) (f : nat -> list Z) (l : list nat) :
  ~ In j l ->
  flat_map (fun i => if decide (j = i) then v :: f i else f i) l = flat_map f l.
Proof.
  induction l as [|i l IH]; simpl; [done|]. intros Hj.
  rewrite IH by tauto. case_decide; [|done]. subst. tauto.
Qed.

Lemma flat_map_hit (j : nat) (v : Z) (f : nat -> list Z) (l : list nat) :
  List.NoDup l -> In j l ->
  Permutation (flat_map (fun i => if decide (j = i) then v :: f i else f i) l)
              (v :: flat_map f l).
Proof.
  induction l as [|i l IH]; simpl; [done|]. intros Hnd Hj.
  apply List.NoDup_cons_iff in Hnd as [Hi Hnd].
  case_decide as E.
  - subst i. by rewrite flat_map_skip.
  - rewrite IH by first [done | destruct Hj; [congruence | done]].
    symmetry. apply Permutation_middle.
Qed.

Lemma sent_by_lanes (W : nat) (l : list event) :
  lanes_in_pool W l ->
  Permutation (sent l) (flat_map (fun i => worker_in i l) (seq 0 W)).
Proof.
  induction l as [|e l IH]; intros HL.
  - simpl. induction (seq 0 W); simpl; [done|]. done.
  - assert (HL' : lanes_in_pool W l) by (intros i v Hin; apply (HL i v); by right).
    specialize (IH HL').
    destruct e; simpl; try exact IH.
    rewrite flat_map_hit.
    + by constructor.
    + apply List.seq_NoDup.
    + apply in_seq. pose proof (HL i v (or_introl eq_refl)). lia.
Qed.

Lemma flat_map_length_sum (f : nat -> list Z) (l : list nat) :
  Z.of_nat (length (flat_map f l)) = sumf (fun i => Z.of_nat (length (f i))) l.
Proof. induction l as [|i l IH]; simpl; [done|]. rewrite length_app. lia. Qed.

(** X12. The breakdown by worker.  Every value that [Generator] has sent
    was received by exactly one worker of the pool: the values sent are, as
    a multiset, the values received by worker 0, ..., worker W - 1 put
    together.  Once [main] has left its receive loop the slot [amounts[i]]
    of the report is the number of values that worker [i] has received, as
    an [int64], and that number itself when fewer than 2^63 values were
    sent. *)
Theorem breakdown_by_worker (W : nat) (expired : bool) (s : state) :
  reachable W expired s ->
  Permutation (sent (log s)) (flat_map (fun i => worker_in i (log s)) (seq 0 W)) /\
  Z.of_nat (length (sent (log s))) =
    sumf (fun i => Z.of_nat (length (worker_in i (log s)))) (seq 0 W) /\
  (drained (main s) = true ->
     forall i a, amounts s !! i = Some a ->
       a = wrap64 (Z.of_nat (length (worker_in i (log s)))) /\
       (Z.of_nat (length (sent (log s))) <= max_int64 ->
          a = Z.of_nat (length (worker_in i (log s))))).
Proof.
  intros Hr. pose proof (reachable_lanes _ _ _ Hr) as HL.
  apply reachable_inv in Hr as [C V L].
  pose proof (sent_by_lanes W (log s) HL) as HP.
  split; [done|]. split.
  { rewrite <- flat_map_length_sum. f_equal. by apply Permutation_length. }
  intros Hd i a Ha.
  destruct (drained_quiet W s C Hd) as (HWD & HCD & _).
  pose proof (lookup_lt_Some _ _ _ Ha) as Hi. rewrite (ci_amounts_len _ _ C) in Hi.
  destruct (lookup_lt_is_Some_2 (workers s) i) as [w Hw];
    [rewrite (ci_workers_len _ _ C); lia|].
  destruct (lookup_lt_is_Some_2 (collectors s) i) as [c Hc];
    [rewrite (ci_collectors_len _ _ C); lia|].
  pose proof (li_worker _ L _ _ Hw) as E1.
  pose proof (li_collector _ L _ _ Hc) as E2.
  pose proof (li_incs _ L _ _ Hc) as E3.
  rewrite (HWD _ _ Hw) in E1. rewrite (HCD _ _ Hc) in E2, E3. simpl in E1, E2, E3.
  assert (E : a = wrap64 (Z.of_nat (length (worker_in i (log s))))).
  { rewrite (li_amount _ L _ _ Ha), E3, E1, E2. f_equal. lia. }
  split; [done|]. intros Hn. rewrite E. apply wrap64_id.
  pose proof (worker_in_length i (log s)). unfold in_int64, min_int64. lia.
Qed.

Lemma breakdown_by_worker_witness :
  exists s, exec NumOut demo_run (init NumOut false) = Some s /\
    amounts s !! 7%nat = Some 2 /\ rev (worker_in 7 (log s)) = [2; 3] /\
    Permutation (sent (log s))
      (flat_map (fun i => worker_in i (log s)) (seq 0 NumOut)) /\
    2 = wrap64 (Z.of_nat (length (worker_in 7 (log s)))).
Proof.
  eexists. split; [vm_compute; reflexivity|].
  do 2 (split; [reflexivity|]).
  match goal with
  | |- Permutation (sent (log ?s)) _ /\ _ =>
      assert (Hr : reachable NumOut false s)
        by (exists demo_run; vm_compute; reflexivity);
      destruct (breakdown_by_worker NumOut false s Hr) as (H1 & _ & H2)
  end.
  split; [exact H1|].
  match goal with
  | |- _ = wrap64 (Z.of_nat (length (worker_in _ (log ?s)))) =>
      assert (Ha : amounts s !! 7%nat = Some 2) by reflexivity
  end.
  exact (proj1 (H2 eq_refl 7%nat 2 Ha)).
Defined.

Lemma tallies_written_by W a s s' :
  step W a s = Some s' ->
  (inputSum s' <> inputSum s -> a = AGen /\ gen s = GHookSum) /\
  (inputCount s' <> inputCount s ->
     (a = AGen /\ gen s = GHookCount) \/
     (a = AMain /\ exists k, main s = MPartition k)) /\
  (count s' <> count s -> a = AMain /\ exists v, main s = MCount v) /\
  (sum s' <> sum s -> a = AMain /\ exists v, main s = MSum v) /\
  (g s' <> g s -> a = AGen /\ gen s = GSelect).
Proof.
  intros H.
  destruct s as [cd gp gv ci isum icnt ws oc cs am co coc wgc kp mp cn sm ec lg].
  step_inv H; simpl; repeat split; try done; eauto.
Qed.

(** X13. The tallies have one writer at a time, so that the atomic
    additions of the hook race with nothing.  [inputSum] is written only
    by [Generator], in the hook, and [inputCount] only by [Generator], in
    the hook, or by [main], in the loop of lines 143-145; while [Generator]
    is in the hook [main] has not left its receive loop, after which alone
    it reads or writes them, and when [main] writes [inputCount]
    [Generator] is not in the hook.  [count] and [sum] are written only by
    [main], at lines 128 and 129, and [g] only by [Generator], at line
    24. *)
Theorem tallies_single_writer
    (W : nat) (expired : bool) (s : state) (a : action) (s' : state) :
  reachable W expired s -> step W a s = Some s' ->
  (inputSum s' <> inputSum s ->
     a = AGen /\ gen s = GHookSum /\ drained (main s) = false) /\
  (inputCount s' <> inputCount s ->
     (a = AGen /\ gen s = GHookCount /\ drained (main s) = false) \/
     (a = AMain /\ (exists k, main s = MPartition k) /\
      gen s <> GHookSum /\ gen s <> GHookCount)) /\
  (count s' <> count s -> a = AMain /\ exists v, main s = MCount v) /\
  (sum s' <> sum s -> a = AMain /\ exists v, main s = MSum v) /\
  (g s' <> g s -> a = AGen /\ gen s = GSelect).
Proof.
  intros [C V L]%reachable_inv Hs.
  destruct (tallies_written_by W a s s' Hs) as (H1 & H2 & H3 & H4 & H5).
  assert (Hh : gen s = GHookSum \/ gen s = GHookCount -> drained (main s) = false).
  { intros Hg. destruct (drained (main s)) eqn:Hd; [|done].
    destruct (drained_quiet W s C Hd) as (_ & _ & _ & G1 & G2). by destruct Hg. }
  split; [|split; [|done]].
  - intros Hne. destruct (H1 Hne) as [-> Hg]. auto.
  - intros Hne. destruct (H2 Hne) as [[-> Hg]|[-> [k Hk]]]; [left; auto|right].
    split; [done|]. split; [by exists k|].
    assert (Hd : drained (main s) = true) by (by rewrite Hk).
    destruct (drained_quiet W s C Hd) as (_ & _ & _ & G1 & G2). done.
Qed.

Lemma tallies_single_writer_witness :
  exists s s', exec NumOut demo_hook (init NumOut false) = Some s /\
    step NumOut AGen s = Some s' /\
    inputSum s = 1 /\ inputSum s' = 3 /\
    gen s = GHookSum /\ drained (main s) = false.
Proof.
  eexists. eexists. split; [vm_compute; reflexivity|].
  split; [vm_compute; reflexivity|].
  split; [reflexivity|].
  match goal with
  | |- inputSum ?s' = _ /\ gen ?s = _ /\ _ =>
      assert (Hr : reachable NumOut false s)
        by (exists demo_hook; vm_compute; reflexivity);
      assert (Hs : step NumOut AGen s = Some s') by (vm_compute; reflexivity);
      assert (Hne : inputSum s' <> inputSum s) by (vm_compute; discriminate);
      destruct (tallies_single_writer NumOut false s AGen s' Hr Hs) as (H & _)
  end.
  split; [reflexivity|].
  destruct (H Hne) as (_ & Hg & Hd). split; [exact Hg | exact Hd].
Defined.
